(** * libki: type descriptors, type-erased values, casters and codecs

    A shallow embedding of the reflection core of libki (namespace
    [ki::pclass]) and the properties its specification states about it.

    - [TypeSystem]: [Type.cpp] and [ClassType.cpp] -- type descriptors, the
      [IClassType] constructor, [IClassType::inherits], [assert_type_match].
    - [Casting]: [Value.h] -- [Value], [ValueCaster] and the caster registry.
    - [ClassCodec]: [IClassType::write_to] / [IClassType::read_from].
    - [PrimitiveCodec]: [PrimitiveTypeWriter] / [PrimitiveTypeReader] for
      integral types.

    Objects that C++ allocates and addresses by pointer live in explicit
    stores; an address is the allocation's sequence number. *)

From Stdlib Require Import ZArith Bool Lia.
From stdpp Require Import base option list gmap strings.

Open Scope string_scope.
Open Scope list_scope.

(** ** Exceptions and outcomes *)

(** [std::type_info]: the hash is the identity token the code compares and
    keys its tables by; the name is what a [cast_error] reports. *)
Record type_info := TypeInfo { hash_code : N; type_name : string }.

(** What the code throws: [ki::runtime_error], [ki::cast_error] (carrying the
    source and destination [type_info]) and [std::bad_cast] (a failed
    [dynamic_cast] to a reference). *)
Inductive exception :=
| runtime_error (what : string)
| cast_error (src dest : type_info)
| bad_cast.

(** How a call ends: it returns, it throws, or it dereferences a pointer that
    refers to no live object (undefined behaviour in C++). *)
Inductive outcome (A : Type) :=
| Ret (a : A)
| Throw (e : exception)
| Undefined.
Arguments Ret {A} a.
Arguments Throw {A} e.
Arguments Undefined {A}.

(** An address: the sequence number of the allocation. *)
Abbreviation addr := nat (only parsing).

(** ** Type descriptors ([Type.cpp], [ClassType.cpp]) *)
Module TypeSystem.

Abbreviation hash_t := N (only parsing).

Inductive kind := NONE | PRIMITIVE | CLASS | ENUM.

Definition kind_eqb (a b : kind) : bool :=
  match a, b with
  | NONE, NONE | PRIMITIVE, PRIMITIVE | CLASS, CLASS | ENUM, ENUM => true
  | _, _ => false
  end.

(** The part of [TypeSystem] the constructors use: its hash calculator. *)
Record TypeSystem := { calculate_type_hash : string -> hash_t }.

(** The fields of the base class [Type]. *)
Record Type_ := { m_name : string; m_hash : hash_t; m_kind : kind }.

(** [Type::Type(name, type_system)]. *)
Definition Type_ctor (name : string) (type_system : TypeSystem) : Type_ :=
  {| m_name := name;
     m_hash := calculate_type_hash type_system name;
     m_kind := NONE |}.

Definition set_kind (k : kind) (t : Type_) : Type_ :=
  {| m_name := m_name t; m_hash := m_hash t; m_kind := k |}.

(** A descriptor object: either an [IClassType] (the [Type] fields plus
    [m_base_class], null or a pointer to another [IClassType]), or any other
    subclass of [Type] (which sets the protected [m_kind] as it likes). *)
Inductive type_object :=
| OtherType (base : Type_)
| ClassType (base : Type_) (m_base_class : option addr).

Definition as_Type (o : type_object) : Type_ :=
  match o with OtherType t => t | ClassType t _ => t end.

Definition get_name (o : type_object) : string := m_name (as_Type o).
Definition get_hash (o : type_object) : hash_t := m_hash (as_Type o).
Definition get_kind (o : type_object) : kind := m_kind (as_Type o).

(** [dynamic_cast<const IClassType *>]: the [m_base_class] of an
    [IClassType], nothing for any other object. *)
Definition dynamic_cast_IClassType (o : type_object) : option (option addr) :=
  match o with
  | ClassType _ b => Some b
  | OtherType _ => None
  end.

(** The descriptors alive, by address. *)
Abbreviation store := (list type_object) (only parsing).

(** Construction of a descriptor that is not an [IClassType]: the [Type]
    constructor, then the subclass constructor's assignment to [m_kind]. *)
Definition OtherType_ctor (name : string) (k : kind) (type_system : TypeSystem)
    (st : store) : addr * store :=
  (length st, st ++ [OtherType (set_kind k (Type_ctor name type_system))]).

(** [IClassType::IClassType(name, base_class, type_system)]. A constructor
    that throws creates no object. *)
Definition IClassType_ctor (name : string) (base_class : option addr)
    (type_system : TypeSystem) (st : store) : outcome (addr * store) :=
  let this := set_kind CLASS (Type_ctor name type_system) in
  match base_class with
  | Some b =>
      match st !! b with
      | None => Undefined
      | Some base =>
          if negb (kind_eqb (get_kind base) CLASS) then
            Throw (runtime_error "base_class must be a class type!")
          else
            match dynamic_cast_IClassType base with
            | None => Throw (runtime_error "base_class must inherit IClassType!")
            | Some _ => Ret (length st, st ++ [ClassType this (Some b)])
            end
      end
  | None => Ret (length st, st ++ [ClassType this None])
  end.

(** [IClassType::inherits(type)] on the object at [this]. The recursion
    follows [m_base_class]; [fuel] bounds its depth, and [None] says the
    bound was reached. *)
Fixpoint inherits_fuel (fuel : nat) (st : store) (this type : addr)
    : option (outcome bool) :=
  match fuel with
  | O => None
  | S fuel' =>
      if Nat.eqb type this then Some (Ret true)
      else
        match st !! this with
        | Some (ClassType _ (Some base)) => inherits_fuel fuel' st base type
        | Some (ClassType _ None) => Some (Ret false)
        | Some (OtherType _) | None => Some Undefined
        end
  end.

(** A chain of base pointers through [length st] live objects without a
    repeat is at most that long. *)
Definition inherits (st : store) (this type : addr) : option (outcome bool) :=
  inherits_fuel (S (length st)) st this type.

(** The [bool] as [operator<<] prints it (no [boolalpha]). *)
Definition show_bool (b : bool) : string := if b then "1" else "0".

Definition type_mismatch (expected actual : type_object) (allow_inheritance : bool)
    : exception :=
  runtime_error
    ("Type mismatch. (" +:+
     "expected=" +:+ get_name expected +:+ ", " +:+
     "actual=" +:+ get_name actual +:+ ", " +:+
     "allow_inheritance=" +:+ show_bool allow_inheritance +:+
     ")").

(** [assert_type_match(expected, actual, allow_inheritance)]. The
    [dynamic_cast] is to a reference: it throws [std::bad_cast] where the
    pointer form would give null. *)
Definition assert_type_match (st : store) (expected actual : addr)
    (allow_inheritance : bool) : option (outcome unit) :=
  match st !! expected, st !! actual with
  | Some e, Some a =>
      let exactly :=
        if Nat.eqb expected actual then Ret tt
        else Throw (type_mismatch e a allow_inheritance) in
      if allow_inheritance && kind_eqb (get_kind e) CLASS then
        match dynamic_cast_IClassType a with
        | None => Some (Throw bad_cast)
        | Some _ =>
            match inherits st actual expected with
            | None => None
            | Some (Ret true) => Some (Ret tt)
            | Some (Ret false) => Some exactly
            | Some (Throw x) => Some (Throw x)
            | Some Undefined => Some Undefined
            end
        end
      else Some exactly
  | _, _ => Some Undefined
  end.

(** The stores a program can build: from no descriptor, by the two
    constructors. *)
Inductive constructed : store -> Prop :=
| constructed_nil : constructed []
| constructed_other st name k type_system :
    constructed st ->
    constructed (OtherType_ctor name k type_system st).2
| constructed_class st name base_class type_system p st' :
    constructed st ->
    IClassType_ctor name base_class type_system st = Ret (p, st') ->
    constructed st'.

(** [ancestor] is on the base chain of [candidate]: it is [candidate], or on
    the chain of [candidate]'s base. *)
Inductive on_base_chain (st : store) : addr -> addr -> Prop :=
| chain_self candidate : on_base_chain st candidate candidate
| chain_base candidate t base ancestor :
    st !! candidate = Some (ClassType t (Some base)) ->
    on_base_chain st base ancestor ->
    on_base_chain st candidate ancestor.

Definition is_class (st : store) (p : addr) : Prop :=
  exists t b, st !! p = Some (ClassType t b).

(** In a store the constructors built, a base pointer refers to an
    [IClassType] constructed before its holder, and every [IClassType] is of
    kind [CLASS]. *)
Definition well_founded_bases (st : store) : Prop :=
  forall p t b, st !! p = Some (ClassType t b) ->
    m_kind t = CLASS /\
    forall base, b = Some base -> base < p /\ is_class st base.

End TypeSystem.

(** ** Values and casters ([Value.h]) *)
Module Casting.

(** What the embedding takes from the C++ platform: the object
    representation of held values, and the conversion that
    [detail::value_caster<SrcT, DestT>] is instantiated with (by default
    [static_cast<DestT>] of a [SrcT]). A template parameter is passed as
    its [typeid]. *)
Class Platform := {
  payload : Type;
  static_cast : type_info -> type_info -> payload -> payload
}.

(** An instance of [detail::value_caster<SrcT, DestT>], with the address
    [new] gave it. *)
Record value_caster := {
  vc_this : addr;
  vc_SrcT : type_info;
  vc_DestT : type_info
}.

(** A [ValueCaster]: the casters of one source type, by the destination
    type's hash. *)
Record ValueCaster := {
  m_src_type : type_info;
  m_casts : gmap N value_caster
}.

(** [Value]: [m_caster] points to the [ValueCaster] of the held type. *)
Record Value := {
  m_value_ptr : addr;
  m_ptr_is_owned : bool;
  m_type_hash : N;
  m_caster : addr;
  m_deallocator : type_info
}.

Section WithPlatform.
Context `{Platform}.

(** The process state the code reads and writes: the allocator, the storage
    of held values, the [ValueCaster] objects, and the static
    [s_caster_lookup] (null until [ValueCaster::get] creates it). *)
Record State := {
  next_addr : addr;
  heap : gmap addr payload;
  casters : gmap addr ValueCaster;
  s_caster_lookup : option (gmap N addr)
}.

(** A computation over the state. What was written before a throw stays
    written. *)
Definition M (A : Type) : Type := State -> outcome A * State.

#[global] Instance M_ret : MRet M := fun A a st => (Ret a, st).
#[global] Instance M_throw : MThrow exception M := fun A e st => (Throw e, st).
#[global] Instance M_bind : MBind M := fun A B k m st =>
  match m st with
  | (Ret a, st') => k a st'
  | (Throw e, st') => (Throw e, st')
  | (Undefined, st') => (Undefined, st')
  end.

(** [new T(value)]: storage for a copy of [value] at an address not in use. *)
Definition new_copy (value : payload) : M addr := fun st =>
  let p := next_addr st in
  (Ret p,
   {| next_addr := S p;
      heap := <[p := value]> (heap st);
      casters := casters st;
      s_caster_lookup := s_caster_lookup st |}).

(** Reading the storage a pointer refers to. *)
Definition load (p : addr) : M payload := fun st =>
  match heap st !! p with
  | Some x => (Ret x, st)
  | None => (Undefined, st)
  end.

(** *** ValueCaster: the registry *)

(** [ValueCaster::get<SrcT>()]. *)
Definition ValueCaster_get (SrcT : type_info) : M addr := fun st =>
  let lookup := default ∅ (s_caster_lookup st) in
  let src_type_hash := hash_code SrcT in
  match lookup !! src_type_hash with
  | Some p =>
      (Ret p,
       {| next_addr := next_addr st;
          heap := heap st;
          casters := casters st;
          s_caster_lookup := Some lookup |})
  | None =>
      let p := next_addr st in
      (Ret p,
       {| next_addr := S p;
          heap := heap st;
          casters := <[p := {| m_src_type := SrcT; m_casts := ∅ |}]> (casters st);
          s_caster_lookup := Some (<[src_type_hash := p]> lookup) |})
  end.

(** [ValueCaster::add_caster<SrcT, DestT>()] on the object at [this]. The
    caster the key had is deleted, and the new one takes its place. *)
Definition add_caster (this : addr) (SrcT DestT : type_info) : M unit := fun st =>
  match casters st !! this with
  | None => (Undefined, st)
  | Some vc =>
      let dest_type_hash := hash_code DestT in
      let c := {| vc_this := next_addr st; vc_SrcT := SrcT; vc_DestT := DestT |} in
      (Ret tt,
       {| next_addr := S (next_addr st);
          heap := heap st;
          casters :=
            <[this := {| m_src_type := m_src_type vc;
                         m_casts := <[dest_type_hash := c]> (m_casts vc) |}]>
              (casters st);
          s_caster_lookup := s_caster_lookup st |})
  end.

(** [ValueCaster::declare<SrcT, DestT>()]. *)
Definition declare (SrcT DestT : type_info) : M unit :=
  caster ← ValueCaster_get SrcT;
  add_caster caster SrcT DestT.

(** A run of [declare] calls, as [caster_declarer<T>::declare] makes. *)
Fixpoint declare_each (ds : list (type_info * type_info)) : M unit :=
  match ds with
  | [] => mret tt
  | (SrcT, DestT) :: ds' => declare SrcT DestT;; declare_each ds'
  end.

(** *** Value *)

(** [Value::is<T>()]. *)
Definition is_ (T : type_info) (this : Value) : bool :=
  N.eqb (m_type_hash this) (hash_code T).

(** [Value::is_reference()]. *)
Definition is_reference (this : Value) : bool := negb (m_ptr_is_owned this).

(** [Value::get<T>()] (both overloads): the result and the [Value] after
    the call. The reference returned is the address of the held storage. *)
Definition get (T : type_info) (this : Value) : outcome addr * Value :=
  if negb (is_ T this) then
    (Throw (runtime_error "Invalid call to Value::get<T>."), this)
  else (Ret (m_value_ptr this), this).

(** [Value::release<T>()]: the result and the [Value] after the call. *)
Definition release (T : type_info) (this : Value) : outcome addr * Value :=
  if is_reference this then
    (Throw (runtime_error "Cannot release ownership from a reference Value."), this)
  else if negb (is_ T this) then
    (Throw (runtime_error "Invalid call to Value::get<T>."), this)
  else
    (Ret (m_value_ptr this),
     {| m_value_ptr := m_value_ptr this;
        m_ptr_is_owned := false;
        m_type_hash := m_type_hash this;
        m_caster := m_caster this;
        m_deallocator := m_deallocator this |}).

(** [Value(ptr, owned)] followed by [set_type<T>()]. *)
Definition set_type (T : type_info) (ptr : addr) (owned : bool) : M Value :=
  caster ← ValueCaster_get T;
  mret {| m_value_ptr := ptr;
         m_ptr_is_owned := owned;
         m_type_hash := hash_code T;
         m_caster := caster;
         m_deallocator := T |}.

(** [Value::make_value<T>(value)]. *)
Definition make_value (T : type_info) (value : payload) : M Value :=
  ptr ← new_copy value;
  set_type T ptr true.

(** [Value::make_reference<T>(value)], [value] being the storage at [ptr]. *)
Definition make_reference (T : type_info) (ptr : addr) : M Value :=
  set_type T ptr false.

(** [Value::dereference<T>()]. *)
Definition dereference (T : type_info) (this : Value) : M Value :=
  if negb (is_ T this) then
    mthrow (runtime_error "Invalid call to Value::dereference<T>.")
  else
    x ← load (m_value_ptr this);
    make_value T x.

(** [detail::value_caster_impl<SrcT, DestT>::cast(value)]. *)
Definition value_caster_cast (c : value_caster) (value : Value) : M Value :=
  match (get (vc_SrcT c) value).1 with
  | Ret p =>
      x ← load p;
      make_value (vc_DestT c) (static_cast (vc_SrcT c) (vc_DestT c) x)
  | Throw e => mthrow e
  | Undefined => fun st => (Undefined, st)
  end.

(** [ValueCaster::cast_value<DestT>(value)] on the object at [this]. *)
Definition cast_value (this : addr) (DestT : type_info) (value : Value) : M Value :=
  fun st =>
    match casters st !! this with
    | None => (Undefined, st)
    | Some vc =>
        match m_casts vc !! hash_code DestT with
        | Some c => value_caster_cast c value st
        | None => (Throw (cast_error (m_src_type vc) DestT), st)
        end
    end.

(** [ValueCaster::cast<DestT>(src_type, value)]. It reads through
    [s_caster_lookup] without the null check [get] has. *)
Definition cast_from (DestT : type_info) (src_type : type_info) (value : Value)
    : M Value :=
  fun st =>
    match s_caster_lookup st with
    | None => (Undefined, st)
    | Some lookup =>
        match lookup !! hash_code src_type with
        | Some p => cast_value p DestT value st
        | None => (Throw (cast_error src_type DestT), st)
        end
    end.

(** [ValueCaster::cast<SrcT, DestT>(value)]. *)
Definition cast (SrcT DestT : type_info) (value : Value) : M Value :=
  declare SrcT DestT;;
  caster ← ValueCaster_get SrcT;
  cast_value caster DestT value.

(** [Value::as<T>()]. *)
Definition as_ (T : type_info) (this : Value) : M Value :=
  if negb (is_ T this) then cast_value (m_caster this) T this
  else
    x ← load (m_value_ptr this);
    make_value T x.

(** *** What holds of every state the code reaches *)

(** The caster registered for the pair of hashes [(s, d)], if any. *)
Definition registered (st : State) (s d : N) : option value_caster :=
  lookup ← s_caster_lookup st;
  p ← lookup !! s;
  vc ← casters st !! p;
  m_casts vc !! d.

(** Addresses at or past [next_addr] are not in use. *)
Definition allocator_ok (st : State) : Prop :=
  (forall p x, heap st !! p = Some x -> p < next_addr st) /\
  (forall p vc, casters st !! p = Some vc ->
     p < next_addr st /\
     forall d c, m_casts vc !! d = Some c -> vc_this c < next_addr st).

(** Every entry of [s_caster_lookup] points to a live [ValueCaster] of that
    source hash, whose casters are keyed by their destination's hash. *)
Definition registry_ok (st : State) : Prop :=
  allocator_ok st /\
  forall lookup s p, s_caster_lookup st = Some lookup -> lookup !! s = Some p ->
    exists vc, casters st !! p = Some vc /\
      hash_code (m_src_type vc) = s /\
      forall d c, m_casts vc !! d = Some c ->
        hash_code (vc_SrcT c) = s /\ hash_code (vc_DestT c) = d.

(** A [Value] as [make_value] and [make_reference] leave it: its caster is
    the registry's entry for the held type. *)
Definition value_ok (st : State) (v : Value) : Prop :=
  exists lookup, s_caster_lookup st = Some lookup /\
    lookup !! m_type_hash v = Some (m_caster v).

(** From [st] to [st'] the allocator only advanced and [s_caster_lookup]
    kept its entries. *)
Definition grows (st st' : State) : Prop :=
  next_addr st <= next_addr st' /\
  forall lookup s p, s_caster_lookup st = Some lookup -> lookup !! s = Some p ->
    exists lookup', s_caster_lookup st' = Some lookup' /\ lookup' !! s = Some p.

(** [v'] is a [Value] made in the step from [st] to [st']: it owns
    storage that was not in use in [st] and now holds [value], it holds the
    type [T], and the rest of the storage is as it was. *)
Definition new_owning (st st' : State) (v' : Value) (T : type_info)
    (value : payload) : Prop :=
  m_ptr_is_owned v' = true /\
  m_type_hash v' = hash_code T /\
  heap st !! m_value_ptr v' = None /\
  heap st' = <[m_value_ptr v' := value]> (heap st) /\
  value_ok st' v' /\ registry_ok st'.

(** The state of a process that has declared nothing yet. *)
Definition initial : State :=
  {| next_addr := 0; heap := ∅; casters := ∅; s_caster_lookup := None |}.

(** The last pair of [ds] with the hashes [(s, d)]. *)
Fixpoint last_declared (ds : list (type_info * type_info)) (s d : N)
    : option (type_info * type_info) :=
  match ds with
  | [] => None
  | (SrcT, DestT) :: ds' =>
      match last_declared ds' s d with
      | Some r => Some r
      | None =>
          if N.eqb (hash_code SrcT) s && N.eqb (hash_code DestT) d
          then Some (SrcT, DestT) else None
      end
  end.

End WithPlatform.

End Casting.

(** ** The class codec ([IClassType::write_to], [IClassType::read_from]) *)
Module ClassCodec.

(** Modelled from the spec: [BitStream], [IProperty] and [PropertyClass]
    are not among the sources. A property writes its value to a stream and
    reads it back from one (the read changes the property); either call may
    throw. A [PropertyClass] holds its properties as an ordered collection,
    in declaration order. *)
Class PropertyCodec := {
  BitStream : Type;
  IProperty : Type;
  write_value_to : IProperty -> BitStream -> outcome unit * BitStream;
  read_value_from : IProperty -> BitStream -> outcome unit * IProperty * BitStream
}.

Section WithCodec.
Context `{PropertyCodec}.

(** [PropertyList]: the properties in declaration order. An iterator is a
    position: [begin()] is 0, [end()] the size, [++it] the next position. *)
Abbreviation PropertyList := (list IProperty) (only parsing).

Record PropertyClass := { get_properties : PropertyList }.

(** The loop of [IClassType::write_to], from the iterator [it] on. [fuel]
    bounds the iterations; [None] says the bound was reached. *)
Fixpoint write_loop (fuel : nat) (properties : PropertyList) (it : nat)
    (stream : BitStream) : option (outcome unit * BitStream) :=
  match fuel with
  | O => None
  | S fuel' =>
      if Nat.eqb it (length properties) then Some (Ret tt, stream)
      else
        match properties !! it with
        | None => Some (Undefined, stream)
        | Some prop =>
            match write_value_to prop stream with
            | (Ret _, stream') => write_loop fuel' properties (S it) stream'
            | (Throw e, stream') => Some (Throw e, stream')
            | (Undefined, stream') => Some (Undefined, stream')
            end
        end
  end.

(** [IClassType::write_to(stream, value)], [object] being
    [get_object_from_value(value)]. *)
Definition write_to (stream : BitStream) (object : PropertyClass)
    : option (outcome unit * BitStream) :=
  let properties := get_properties object in
  write_loop (S (length properties)) properties 0 stream.

(** The loop of [IClassType::read_from]: each property is read in place. *)
Fixpoint read_loop (fuel : nat) (properties : PropertyList) (it : nat)
    (stream : BitStream) : option (outcome unit * PropertyList * BitStream) :=
  match fuel with
  | O => None
  | S fuel' =>
      if Nat.eqb it (length properties) then Some (Ret tt, properties, stream)
      else
        match properties !! it with
        | None => Some (Undefined, properties, stream)
        | Some prop =>
            match read_value_from prop stream with
            | (Ret _, prop', stream') =>
                read_loop fuel' (<[it := prop']> properties) (S it) stream'
            | (Throw e, prop', stream') =>
                Some (Throw e, <[it := prop']> properties, stream')
            | (Undefined, prop', stream') =>
                Some (Undefined, <[it := prop']> properties, stream')
            end
        end
  end.

(** [IClassType::read_from(stream, value)]: the object after the call. *)
Definition read_from (stream : BitStream) (object : PropertyClass)
    : option (outcome unit * PropertyClass * BitStream) :=
  let properties := get_properties object in
  match read_loop (S (length properties)) properties 0 stream with
  | Some (o, properties', stream') =>
      Some (o, {| get_properties := properties' |}, stream')
  | None => None
  end.

(** The specification's reading: the declared properties one after the
    other, front to back, up to the first that fails. *)
Fixpoint write_in_declared_order (declared : list IProperty) (stream : BitStream)
    : outcome unit * BitStream :=
  match declared with
  | [] => (Ret tt, stream)
  | prop :: rest =>
      match write_value_to prop stream with
      | (Ret _, stream') => write_in_declared_order rest stream'
      | (Throw e, stream') => (Throw e, stream')
      | (Undefined, stream') => (Undefined, stream')
      end
  end.

Fixpoint read_in_declared_order (declared : list IProperty) (stream : BitStream)
    : outcome unit * list IProperty * BitStream :=
  match declared with
  | [] => (Ret tt, [], stream)
  | prop :: rest =>
      match read_value_from prop stream with
      | (Ret _, prop', stream') =>
          match read_in_declared_order rest stream' with
          | (o, rest', stream'') => (o, prop' :: rest', stream'')
          end
      | (Throw e, prop', stream') => (Throw e, prop' :: rest, stream')
      | (Undefined, prop', stream') => (Undefined, prop' :: rest, stream')
      end
  end.

End WithCodec.

(** A codec that also records which property each call was made on: the
    stream carries the list of the properties visited so far. *)
Definition traced (C : PropertyCodec) : PropertyCodec := {|
  BitStream := (@BitStream C * list (@IProperty C))%type;
  IProperty := @IProperty C;
  write_value_to prop s :=
    match @write_value_to C prop s.1 with
    | (o, stream') => (o, (stream', s.2 ++ [prop]))
    end;
  read_value_from prop s :=
    match @read_value_from C prop s.1 with
    | (o, prop', stream') => (o, prop', (stream', s.2 ++ [prop]))
    end
|}.

End ClassCodec.

(** ** The primitive codec for integral types *)
Module PrimitiveCodec.

(** An integral [ValueT] as the codec sees it: its signedness and
    [bitsizeof<ValueT>::value]. ([ki/util/BitTypes.h] is not among the
    sources: the width is that of the type's values, 8 * sizeof for the
    built-in integers and N for [BitInteger<N, Unsigned>].) *)
Record integral := { is_unsigned : bool; bitsizeof : nat }.

(** The integers that [bit_width] bits represent, unsigned or in two's
    complement. *)
Definition representable (unsigned : bool) (bit_width : nat) (value : Z) : Prop :=
  if unsigned then (0 <= value < 2 ^ Z.of_nat bit_width)%Z
  else (- 2 ^ (Z.of_nat bit_width - 1) <= value < 2 ^ (Z.of_nat bit_width - 1))%Z.

(** The values of an integral type. *)
Definition value_of (T : integral) (value : Z) : Prop :=
  representable (is_unsigned T) (bitsizeof T) value.

(** Modelled from the spec: the bit-level stream ([ki/util/BitStream.h] is
    not among the sources): [write<T>(value, bit_width)],
    [read<T>(bit_width) -> T], and the cursor both move, which a caller
    reads with [tell] and sets with [seek]. *)
Class BitStreamAPI := {
  BitStream : Type;
  stream_write : integral -> Z -> nat -> BitStream -> BitStream;
  stream_read : integral -> nat -> BitStream -> Z * BitStream;
  tell : BitStream -> nat;
  seek : nat -> BitStream -> BitStream
}.

Section WithStream.
Context `{BitStreamAPI}.

(** [PrimitiveTypeWriter<ValueT>::write_to(stream, value)]. *)
Definition write_to (ValueT : integral) (stream : BitStream) (value : Z) : BitStream :=
  stream_write ValueT value (bitsizeof ValueT) stream.

(** [PrimitiveTypeReader<ValueT>::read_from(stream, value)]: the value
    assigned and the stream after the call. *)
Definition read_from (ValueT : integral) (stream : BitStream) : Z * BitStream :=
  stream_read ValueT (bitsizeof ValueT) stream.

(** The stream's contract: a read of [bit_width] bits, at the place where
    [bit_width] bits of a value were written, returns that value. *)
Definition stream_contract : Prop :=
  forall (T : integral) (value : Z) (bit_width : nat) (s : BitStream),
    representable (is_unsigned T) bit_width value ->
    (stream_read T bit_width (seek (tell s) (stream_write T value bit_width s))).1
    = value.

End WithStream.

(** *** A stream of bits *)

(** The low [bit_width] bits of [value], least significant first. *)
Fixpoint to_bits (bit_width : nat) (value : Z) : list bool :=
  match bit_width with
  | O => []
  | S w => Z.odd value :: to_bits w (Z.div2 value)
  end.

Fixpoint of_bits (bits : list bool) : Z :=
  match bits with
  | [] => 0
  | b :: bits' => Z.b2z b + 2 * of_bits bits'
  end.

(** A buffer of bits and a cursor into it, in bits: no byte alignment. *)
Record bit_buffer := { buffer : list bool; cursor : nat }.

(** Writing at the cursor overwrites what is there and grows the buffer as
    needed. *)
Definition buffer_write (T : integral) (value : Z) (bit_width : nat) (s : bit_buffer)
    : bit_buffer :=
  let padded := buffer s ++ replicate (cursor s - length (buffer s)) false in
  {| buffer := take (cursor s) padded ++ to_bits bit_width value
               ++ drop (cursor s + bit_width) padded;
     cursor := cursor s + bit_width |}.

(** Reading takes [bit_width] bits at the cursor (bits past the end read as
    0) and, for a signed type, extends the sign. *)
Definition buffer_read (T : integral) (bit_width : nat) (s : bit_buffer)
    : Z * bit_buffer :=
  let bits := take bit_width (drop (cursor s) (buffer s)
                              ++ replicate bit_width false) in
  let u := of_bits bits in
  let v :=
    if is_unsigned T then u
    else if (u <? 2 ^ (Z.of_nat bit_width - 1))%Z then u
    else (u - 2 ^ Z.of_nat bit_width)%Z in
  (v, {| buffer := buffer s; cursor := cursor s + bit_width |}).

Definition bit_buffer_stream : BitStreamAPI := {|
  BitStream := bit_buffer;
  stream_write := buffer_write;
  stream_read := buffer_read;
  tell := cursor;
  seek p s := {| buffer := buffer s; cursor := p |}
|}.

End PrimitiveCodec.

(** ** Sample programs *)
Module Samples.
Import TypeSystem.

(** A schema that hashes a name to its length. *)
Definition schema : TypeSystem :=
  {| calculate_type_hash := fun name => N.of_nat (String.length name) |}.

Definition after (r : outcome (addr * store)) (otherwise : store) : store :=
  match r with Ret (_, st) => st | _ => otherwise end.

(** A primitive type [int] at address 0, a class [X] at 1, and a class [Y]
    derived from [X] at 2. *)
Definition with_int : store := (OtherType_ctor "int" PRIMITIVE schema []).2.
Definition with_X : store := after (IClassType_ctor "X" None schema with_int) with_int.
Definition with_Y : store := after (IClassType_ctor "Y" (Some 1) schema with_X) with_X.

(** A descriptor of kind [CLASS] that is not an [IClassType], at address 3. *)
Definition with_Fake : store := (OtherType_ctor "Fake" CLASS schema with_Y).2.

(** A platform whose values are integers: the conversion to
    [unsigned char] keeps the low 8 bits, any other leaves the integer. *)
Definition int32_t : type_info := TypeInfo 1 "int".
Definition uint8_t : type_info := TypeInfo 2 "unsigned char".
Definition int64_t : type_info := TypeInfo 3 "long".

#[global] Instance integers : Casting.Platform := {|
  Casting.payload := Z;
  Casting.static_cast _ DestT x :=
    if N.eqb (hash_code DestT) 2 then (x mod 256)%Z else x
|}.

Definition result_of {A} (r : outcome A * Casting.State) (otherwise : A) : A :=
  match r.1 with Ret a => a | _ => otherwise end.

Definition no_value : Casting.Value :=
  {| Casting.m_value_ptr := 0; Casting.m_ptr_is_owned := false;
     Casting.m_type_hash := 0; Casting.m_caster := 0;
     Casting.m_deallocator := int32_t |}.

(** [ValueCaster::declare<int, unsigned char>()], then
    [Value::make_value<int>(300)]. *)
Definition owned_int : Casting.Value :=
  {| Casting.m_value_ptr := 7; Casting.m_ptr_is_owned := true;
     Casting.m_type_hash := 1; Casting.m_caster := 0;
     Casting.m_deallocator := int32_t |}.

Definition declared : Casting.State :=
  (Casting.declare int32_t uint8_t Casting.initial).2.
Definition held_300 : Casting.Value :=
  result_of (Casting.make_value int32_t 300%Z declared) no_value.
Definition with_300 : Casting.State :=
  (Casting.make_value int32_t 300%Z declared).2.

(** A codec over a queue of integers: a property is a name and a value;
    writing appends the value, reading takes the front one (and throws at
    the end of the queue). *)
Definition queue_codec : ClassCodec.PropertyCodec := {|
  ClassCodec.BitStream := list Z;
  ClassCodec.IProperty := (string * Z)%type;
  ClassCodec.write_value_to prop s := (Ret tt, s ++ [prop.2]);
  ClassCodec.read_value_from prop s :=
    match s with
    | x :: s' => (Ret tt, (prop.1, x), s')
    | [] => (Throw (runtime_error "end of stream"), prop, s)
    end
|}.

Definition three_fields : @ClassCodec.PropertyClass queue_codec :=
  @ClassCodec.Build_PropertyClass queue_codec
    ([("id", 7%Z); ("level", 42%Z); ("gold", 0%Z)] : list (string * Z)).

(** [bi<24>], a signed 24-bit integer, and a buffer holding three bits with
    the cursor after them. *)
Definition bi24 : PrimitiveCodec.integral :=
  {| PrimitiveCodec.is_unsigned := false; PrimitiveCodec.bitsizeof := 24 |}.
Definition three_bits : PrimitiveCodec.bit_buffer :=
  {| PrimitiveCodec.buffer := [true; false; true]; PrimitiveCodec.cursor := 3 |}.

End Samples.

(** ** Steps of the registry, and the caster declarations of the primitive
    types *)
Module CastingExt.
Import Casting.

(** The types the declarations name. *)
Inductive cpp_type :=
| bool_t
| bi (N : nat)
| bui (N : nat)
| int8_t | int16_t | int32_t | int64_t
| uint8_t | uint16_t | uint32_t | uint64_t
| float_t | double_t
| std_string | std_u16string
| nlohmann_json.

(** [typeid] of each of them. *)
Class TypeIds := { typeid : cpp_type -> type_info }.

Section WithPlatform.
Context `{Platform} `{TypeIds}.

(** A step from [st] to [st'] that keeps the registry sound, keeps every
    entry of [s_caster_lookup], and keeps all storage in use as it was. *)
Definition sound_step (st st' : State) : Prop :=
  registry_ok st' /\ grows st st' /\
  forall p x, heap st !! p = Some x -> heap st' !! p = Some x.

(** [detail::bit_integer_declarer<T, N>::declare()]. *)
Fixpoint bit_integer_declarer (T : type_info) (N : nat) : M unit :=
  match N with
  | O => mret tt
  | S N' =>
      bit_integer_declarer T N';;
      declare T (typeid (bi (S N')));;
      declare T (typeid (bui (S N')))
  end.

(** [detail::caster_declarer<T>::declare()], the unspecialised template. *)
Definition caster_declarer (T : type_info) : M unit := mret tt.

(** [caster_declarer<T>::declare()] for an integral [T]. *)
Definition caster_declarer_integral (T : type_info) : M unit :=
  declare T (typeid bool_t);;
  bit_integer_declarer T 7;;
  declare T (typeid int8_t);;
  declare T (typeid int16_t);;
  declare T (typeid (bi 24));;
  declare T (typeid int32_t);;
  declare T (typeid int64_t);;
  declare T (typeid uint8_t);;
  declare T (typeid uint16_t);;
  declare T (typeid (bui 24));;
  declare T (typeid uint32_t);;
  declare T (typeid uint64_t);;
  declare T (typeid float_t);;
  declare T (typeid double_t);;
  declare T (typeid std_string);;
  declare T (typeid nlohmann_json).

(** [caster_declarer<T>::declare()] for a floating point [T]. *)
Definition caster_declarer_floating_point (T : type_info) : M unit :=
  declare T (typeid bool_t);;
  bit_integer_declarer T 7;;
  declare T (typeid int8_t);;
  declare T (typeid int16_t);;
  declare T (typeid (bi 24));;
  declare T (typeid int32_t);;
  declare T (typeid int64_t);;
  declare T (typeid uint8_t);;
  declare T (typeid uint16_t);;
  declare T (typeid (bui 24));;
  declare T (typeid uint32_t);;
  declare T (typeid uint64_t);;
  declare T (typeid float_t);;
  declare T (typeid double_t);;
  declare T (typeid std_string);;
  declare T (typeid nlohmann_json).

(** [caster_declarer<T>::declare()] for an enum [T]. *)
Definition caster_declarer_enum (T : type_info) : M unit :=
  declare T (typeid bool_t);;
  bit_integer_declarer T 7;;
  declare T (typeid int8_t);;
  declare T (typeid int16_t);;
  declare T (typeid (bi 24));;
  declare T (typeid int32_t);;
  declare T (typeid int64_t);;
  declare T (typeid uint8_t);;
  declare T (typeid uint16_t);;
  declare T (typeid (bui 24));;
  declare T (typeid uint32_t);;
  declare T (typeid uint64_t);;
  declare T (typeid std_string);;
  declare T (typeid nlohmann_json).

(** [caster_declarer<std::string>::declare()]. *)
Definition caster_declarer_string : M unit :=
  declare (typeid std_string) (typeid nlohmann_json).

(** [caster_declarer<std::u16string>::declare()]. *)
Definition caster_declarer_u16string : M unit :=
  declare (typeid std_u16string) (typeid nlohmann_json).

End WithPlatform.

(** The bit integers up to [N] bits: [bi<1>], [bui<1>], ..., [bi<N>],
    [bui<N>]. *)
Definition bit_integers (N : nat) : list cpp_type :=
  flat_map (fun k => [bi k; bui k]) (seq 1 N).

(** The destinations an integral or floating point type is given, in the
    order of their declarations. *)
Definition numeric_destinations : list cpp_type :=
  bool_t :: bit_integers 7 ++
  [int8_t; int16_t; bi 24; int32_t; int64_t;
   uint8_t; uint16_t; bui 24; uint32_t; uint64_t;
   float_t; double_t; std_string; nlohmann_json].

(** The destinations an enum is given. *)
Definition enum_destinations : list cpp_type :=
  bool_t :: bit_integers 7 ++
  [int8_t; int16_t; bi 24; int32_t; int64_t;
   uint8_t; uint16_t; bui 24; uint32_t; uint64_t;
   std_string; nlohmann_json].

(** The declarations of [T] to each of [dests], as pairs. *)
Definition declarations `{TypeIds} (T : type_info) (dests : list cpp_type)
    : list (type_info * type_info) :=
  map (fun D => (T, typeid D)) dests.

End CastingExt.

(** ** The wide string field of DML ([WStrField.cpp]) *)
Module Dml.

(** What the field's code depends on in the machine: its byte order, and
    whether [char] is signed. A byte is an integer from 0 to 255, a
    [USHRT] or [char16_t] one from 0 to 65535. *)
Record Machine := { big_endian : bool; char_is_signed : bool }.

(** [ValueBytes<USHRT>] ([ki/util/ValueBytes.h] is not among the sources):
    a union of [value] and the two [char]s [buff] of its object
    representation. *)
Definition ValueBytes_buff (m : Machine) (value : Z) : Z * Z :=
  let lo := (value mod 256)%Z in
  let hi := ((value / 256) mod 256)%Z in
  if big_endian m then (hi, lo) else (lo, hi).

Definition ValueBytes_value (m : Machine) (buff : Z * Z) : Z :=
  if big_endian m then (buff.1 * 256 + buff.2)%Z else (buff.1 + buff.2 * 256)%Z.

(** [std::reverse] over the two bytes. *)
Definition reverse (buff : Z * Z) : Z * Z := (buff.2, buff.1).

(** A [char] in a comparison with a [size_t]: promoted to [int] (negative
    from 128 on where [char] is signed), then converted to [size_t], of 64
    bits. *)
Definition char_as_size_t (m : Machine) (c : Z) : Z :=
  if char_is_signed m && (128 <=? c)%Z then (2 ^ 64 + (c - 256))%Z else c.

(** [std::u16string], by its code units. *)
Abbreviation WSTR := (list Z) (only parsing).

(** The bytes [c_str()] points to, terminator left out. *)
Definition c_str_bytes (m : Machine) (value : WSTR) : list Z :=
  flat_map (fun u => [(ValueBytes_buff m u).1; (ValueBytes_buff m u).2]) value.

(** [WStrField::write_to(ostream)]: the stream is the bytes written to it
    so far. *)
Definition write_to (m : Machine) (m_value : WSTR) (ostream : list Z) : list Z :=
  let length := Z.of_nat (length m_value) in
  let data := ValueBytes_buff m (length mod 65536)%Z in
  let data :=
    if (char_as_size_t m data.1 =? Z.shiftr (Z.land length 0xFF00) 8)%Z
    then reverse data else data in
  ostream ++ [data.1; data.2] ++ c_str_bytes m m_value.

(** [WStrField::get_size()]. *)
Definition get_size (m_value : WSTR) : nat := 2 + length m_value * 2.

(** An input stream: the bytes not yet read, and [failbit]. *)
Record istream := { unread : list Z; failbit : bool }.

(** [istream::read(buffer, n)]: the bytes stored into the buffer, and the
    stream after. A stream that has failed gives nothing; one with fewer
    than [n] bytes left gives those and fails. *)
Definition istream_read (n : nat) (s : istream) : list Z * istream :=
  if failbit s then ([], s)
  else if Nat.leb n (length (unread s)) then
    (take n (unread s), {| unread := drop n (unread s); failbit := false |})
  else (unread s, {| unread := []; failbit := true |}).

(** The loop over the code units of [read_from]: its body runs for
    [i] = 0, 2, ... below [length], [count] times, and reverses the two
    bytes at [i] on a big-endian machine. *)
Fixpoint reverse_units (count : nat) (swap : bool) (i : nat) (data : list Z)
    : list Z :=
  match count with
  | O => data
  | S count' =>
      let data' :=
        if swap then
          match data !! i, data !! S i with
          | Some a, Some b => <[i := b]> (<[S i := a]> data)
          | _, _ => data
          end
        else data in
      reverse_units count' swap (i + 2) data'
  end.

(** The [char16_t]s a buffer of bytes holds. *)
Fixpoint units (m : Machine) (data : list Z) : list Z :=
  match data with
  | a :: b :: data' => ValueBytes_value m (a, b) :: units m data'
  | _ => []
  end.

(** The [WSTR] made from a pointer to [char16_t]: the code units before
    the first null. *)
Fixpoint until_null (us : list Z) : WSTR :=
  match us with
  | [] => []
  | u :: us' => if (u =? 0)%Z then [] else u :: until_null us'
  end.

(** [WStrField::read_from(istream)]: the new [m_value] and the stream
    after. When the stream gives fewer than two bytes for the length, the
    code goes on to read [length_data.buff] where nothing was stored. *)
Definition read_from (m : Machine) (stream : istream) : outcome WSTR * istream :=
  let endianness_check := ValueBytes_buff m 0x0102 in
  let '(got, stream1) := istream_read 2 stream in
  match got with
  | [b0; b1] =>
      let length_data :=
        if (endianness_check.1 =? 0x01)%Z then reverse (b0, b1) else (b0, b1) in
      let length := Z.to_nat (ValueBytes_value m length_data * 2) in
      let '(got, stream2) := istream_read length stream1 in
      let data := got ++ replicate (length + 2 - List.length got) 0%Z in
      let data :=
        reverse_units ((length + 1) / 2) (endianness_check.1 =? 0x01)%Z 0 data in
      (Ret (until_null (units m data)), stream2)
  | _ => (Undefined, stream1)
  end.

(** The code units are [char16_t]s. *)
Definition is_WSTR (value : list Z) : Prop :=
  Forall (fun u => (0 <= u < 65536)%Z) value.

(** A code unit with its two bytes exchanged. *)
Definition byte_swapped (u : Z) : Z :=
  ((u mod 256) * 256 + (u / 256) mod 256)%Z.

(** The bytes of a list of byte pairs, in order. *)
Definition flat (pairs : list (Z * Z)) : list Z :=
  flat_map (fun p => [p.1; p.2]) pairs.

End Dml.

(** ** More sample programs *)
Module MoreSamples.
Import CastingExt.

(** A numbering of the types without repeats. *)
Definition type_code (t : cpp_type) : N :=
  match t with
  | bool_t => 100
  | bi n => 200 + 2 * N.of_nat n
  | bui n => 201 + 2 * N.of_nat n
  | int8_t => 101 | int16_t => 102 | int32_t => 103 | int64_t => 104
  | uint8_t => 105 | uint16_t => 106 | uint32_t => 107 | uint64_t => 108
  | float_t => 109 | double_t => 110
  | std_string => 111 | std_u16string => 112
  | nlohmann_json => 113
  end.

#[global] Instance numbered : TypeIds :=
  {| typeid t := TypeInfo (type_code t) "" |}.

(** An enum type of the application. *)
Definition Color : type_info := TypeInfo 7 "Color".

(** A little-endian machine with signed [char] (x86), and a big-endian one. *)
Definition x86 : Dml.Machine :=
  {| Dml.big_endian := false; Dml.char_is_signed := true |}.
Definition big : Dml.Machine :=
  {| Dml.big_endian := true; Dml.char_is_signed := true |}.

(** A string of 65537 code units. *)
Definition long_value : list Z := replicate (Z.to_nat 65537) 65%Z.

End MoreSamples.

(** * Properties *)

(** ** Type descriptors *)
Module TypeSystemFacts.
Import TypeSystem.

Lemma is_class_lt st p : is_class st p -> p < length st.
Proof. intros (t & b & Hp). by eapply lookup_lt_Some. Qed.

Lemma is_class_snoc st o p : is_class st p -> is_class (st ++ [o]) p.
Proof.
  intros (t & b & Hp). exists t, b. by apply lookup_app_l_Some.
Qed.

Lemma well_founded_bases_snoc_other st t :
  well_founded_bases st -> well_founded_bases (st ++ [OtherType t]).
Proof.
  intros Hwf p t' b Hp.
  apply lookup_snoc_Some in Hp as [[Hlt Hp] | [_ Hp]]; [| discriminate].
  destruct (Hwf _ _ _ Hp) as [Hk Hb]. split; [done |].
  intros base ->. destruct (Hb base eq_refl) as [? ?].
  split; [done | by apply is_class_snoc].
Qed.

Lemma well_founded_bases_snoc_class st t b :
  well_founded_bases st -> m_kind t = CLASS ->
  (forall base, b = Some base -> is_class st base) ->
  well_founded_bases (st ++ [ClassType t b]).
Proof.
  intros Hwf Hk Hbase p t' b' Hp.
  apply lookup_snoc_Some in Hp as [[Hlt Hp] | [-> Hp]].
  - destruct (Hwf _ _ _ Hp) as [Hk' Hb]. split; [done |].
    intros base ->. destruct (Hb base eq_refl) as [? ?].
    split; [done | by apply is_class_snoc].
  - injection Hp as <- <-. split; [done |].
    intros base ->. specialize (Hbase base eq_refl).
    split; [by apply is_class_lt | by apply is_class_snoc].
Qed.

Lemma IClassType_ctor_Ret name base_class type_system st p st' :
  IClassType_ctor name base_class type_system st = Ret (p, st') ->
  p = length st /\
  st' = st ++ [ClassType (set_kind CLASS (Type_ctor name type_system)) base_class] /\
  forall b, base_class = Some b ->
    exists t bb, st !! b = Some (ClassType t bb) /\ m_kind t = CLASS.
Proof.
  unfold IClassType_ctor. destruct base_class as [b |].
  - destruct (st !! b) as [base |] eqn:Hb; [| discriminate].
    destruct (kind_eqb (get_kind base) CLASS) eqn:Hk; simpl; [| discriminate].
    destruct base as [t | t bb]; simpl; [discriminate |].
    intros [= <- <-]. repeat split.
    intros b' [= <-]. exists t, bb. split; [done |].
    unfold get_kind in Hk. simpl in Hk. by destruct (m_kind t).
  - intros [= <- <-]. repeat split. intros b [=].
Qed.

Lemma constructed_well_founded st : constructed st -> well_founded_bases st.
Proof.
  induction 1 as [| st name k ts _ IH | st name base_class ts p st' _ IH Hctor].
  - intros p t b Hp. destruct p; discriminate.
  - simpl. by apply well_founded_bases_snoc_other.
  - apply IClassType_ctor_Ret in Hctor as (_ & -> & Hbase).
    apply well_founded_bases_snoc_class; [done | done |].
    intros base Hb. destruct (Hbase base Hb) as (t & bb & Ht & _).
    by exists t, bb.
Qed.

(** The chain only leads to descriptors constructed no later. *)
Lemma on_base_chain_le st candidate ancestor :
  well_founded_bases st -> on_base_chain st candidate ancestor ->
  ancestor <= candidate.
Proof.
  intros Hwf. induction 1 as [| c t base a Hc _ IH]; [lia |].
  destruct (Hwf _ _ _ Hc) as [_ Hb]. destruct (Hb base eq_refl). lia.
Qed.

(** With fuel past the candidate's address, the walk ends, and says whether
    the ancestor is on the chain. *)
Lemma inherits_fuel_decides st :
  well_founded_bases st ->
  forall fuel candidate ancestor, is_class st candidate -> candidate < fuel ->
    exists b, inherits_fuel fuel st candidate ancestor = Some (Ret b) /\
      (b = true <-> on_base_chain st candidate ancestor).
Proof.
  intros Hwf. induction fuel as [| fuel IH]; intros c a Hc Hlt; [lia |].
  simpl. destruct (Nat.eqb_spec a c) as [-> | Hne].
  { exists true. split; [done |]. split; [intros _; constructor | done]. }
  destruct Hc as (t & b & Hc). rewrite Hc.
  destruct (Hwf _ _ _ Hc) as [_ Hb]. destruct b as [base |].
  - destruct (Hb base eq_refl) as [Hbase Hcls].
    destruct (IH base a Hcls ltac:(lia)) as (r & Hr & Hiff).
    exists r. split; [done |]. rewrite Hiff. split.
    + intros Hch. by eapply chain_base.
    + inversion 1 as [| ? ? ? ? Hc' Hch]; subst; [done |].
      rewrite Hc in Hc'. by injection Hc' as <- <-.
  - exists false. split; [done |]. split; [done |].
    inversion 1 as [| ? ? ? ? Hc' Hch]; subst; [done |].
    rewrite Hc in Hc'. discriminate.
Qed.

Lemma inherits_decides st candidate ancestor :
  well_founded_bases st -> is_class st candidate ->
  exists b, inherits st candidate ancestor = Some (Ret b) /\
    (b = true <-> on_base_chain st candidate ancestor).
Proof.
  intros Hwf Hc. apply inherits_fuel_decides; [done | done |].
  apply is_class_lt in Hc. lia.
Qed.

(** C1. In a store built by the constructors, [inherits] on a class
    descriptor returns, and returns true exactly when the ancestor is the
    candidate itself or lies on its chain of base pointers, false when the
    chain ends without it. For a class [Y] whose base is [X],
    [inherits(Y, X)] is true and [inherits(X, Y)] is false. *)
Theorem inherits_walks_base_chain (st : store) :
  constructed st ->
  (forall candidate ancestor, is_class st candidate ->
     exists b, inherits st candidate ancestor = Some (Ret b) /\
       (b = true <-> on_base_chain st candidate ancestor) /\
       (b = false <-> ~ on_base_chain st candidate ancestor)) /\
  (forall candidate, inherits st candidate candidate = Some (Ret true)) /\
  (forall X Y tY, st !! Y = Some (ClassType tY (Some X)) ->
     inherits st Y X = Some (Ret true) /\ inherits st X Y = Some (Ret false)).
Proof.
  intros Hwf%constructed_well_founded. split; [| split].
  - intros c a Hc. destruct (inherits_decides st c a Hwf Hc) as (b & Hb & Hiff).
    exists b. split; [done |]. split; [done |].
    rewrite <- Hiff. by destruct b.
  - intros c. unfold inherits. simpl. by rewrite Nat.eqb_refl.
  - intros X Y tY HY.
    assert (HYc : is_class st Y) by by eexists _, _.
    destruct (Hwf _ _ _ HY) as [_ Hb]. destruct (Hb X eq_refl) as [Hlt HXc].
    destruct (inherits_decides st Y X Hwf HYc) as (b & -> & Hiff).
    destruct (inherits_decides st X Y Hwf HXc) as (b' & -> & Hiff').
    split.
    + do 2 f_equal. apply Hiff. eapply chain_base; [done | constructor].
    + do 2 f_equal. destruct b'; [| done].
      destruct Hiff' as [Hch _]. specialize (Hch eq_refl).
      apply on_base_chain_le in Hch; [lia | done].
Qed.

Lemma with_Y_constructed : constructed Samples.with_Y.
Proof.
  apply (constructed_class Samples.with_X "Y" (Some 1) Samples.schema 2 _);
    [| reflexivity].
  apply (constructed_class Samples.with_int "X" None Samples.schema 1 _);
    [| reflexivity].
  apply (constructed_other [] "int" PRIMITIVE Samples.schema).
  constructor.
Qed.

Lemma inherits_walks_base_chain_witness :
  inherits Samples.with_Y 2 1 = Some (Ret true) /\
  inherits Samples.with_Y 1 2 = Some (Ret false).
Proof.
  destruct (inherits_walks_base_chain Samples.with_Y with_Y_constructed)
    as (_ & _ & H).
  exact (H 1 2 _ eq_refl).
Defined.

(** C8. Constructing a class descriptor with a base throws when the base is
    not of kind [CLASS] or is not an [IClassType]; when construction with a
    base succeeds, the base is an [IClassType] of kind [CLASS] and is the
    new descriptor's base; constructed without a base, the descriptor has
    none. *)
Theorem IClassType_ctor_checks_base (name : string) (base_class : option addr)
    (type_system : TypeSystem) (st : store) :
  (forall b base, base_class = Some b -> st !! b = Some base ->
     get_kind base <> CLASS \/ dynamic_cast_IClassType base = None ->
     exists what,
       IClassType_ctor name base_class type_system st = Throw (runtime_error what)) /\
  (forall b p st', base_class = Some b ->
     IClassType_ctor name base_class type_system st = Ret (p, st') ->
     exists base this,
       st !! b = Some base /\ get_kind base = CLASS /\
       is_Some (dynamic_cast_IClassType base) /\
       st' !! p = Some (ClassType this (Some b)) /\ m_kind this = CLASS) /\
  (base_class = None ->
     exists this,
       IClassType_ctor name base_class type_system st
       = Ret (length st, st ++ [ClassType this None]) /\
       m_kind this = CLASS /\ m_name this = name).
Proof.
  split; [| split].
  - intros b base -> Hb Hbad. unfold IClassType_ctor. rewrite Hb.
    destruct (kind_eqb (get_kind base) CLASS) eqn:Hk; simpl; [| by eexists].
    destruct Hbad as [Hkind | ->]; [| by eexists].
    exfalso. apply Hkind. by destruct (get_kind base).
  - intros b p st' -> Hctor.
    apply IClassType_ctor_Ret in Hctor as (-> & -> & Hbase).
    destruct (Hbase b eq_refl) as (t & bb & Hb & Hk).
    exists (ClassType t bb), (set_kind CLASS (Type_ctor name type_system)).
    split; [done |]. split; [done |]. split; [by eexists |]. split; [| done].
    by rewrite lookup_app_r, Nat.sub_diag.
  - intros ->. by eexists.
Qed.

Lemma IClassType_ctor_checks_base_witness :
  (exists what,
     IClassType_ctor "Z" (Some 0) Samples.schema Samples.with_Y
     = Throw (runtime_error what)) /\
  (exists base, Samples.with_Y !! 1 = Some base /\ get_kind base = CLASS) /\
  (exists this,
     IClassType_ctor "X" None Samples.schema Samples.with_int
     = Ret (1, Samples.with_int ++ [ClassType this None])).
Proof.
  split; [| split].
  - destruct (IClassType_ctor_checks_base "Z" (Some 0) Samples.schema Samples.with_Y)
      as (H & _ & _).
    apply (H 0 _ eq_refl eq_refl). left. discriminate.
  - destruct (IClassType_ctor_checks_base "Y" (Some 1) Samples.schema Samples.with_X)
      as (_ & H & _).
    destruct (H 1 2 Samples.with_Y eq_refl eq_refl) as (base & this & Hb & Hk & _).
    exists base. split; [exact Hb | exact Hk].
  - destruct (IClassType_ctor_checks_base "X" None Samples.schema Samples.with_int)
      as (_ & _ & H).
    destruct (H eq_refl) as (this & Hctor & _). exists this. exact Hctor.
Defined.

(** What [assert_type_match] does on two live descriptors of a store the
    constructors built. *)
Lemma assert_type_match_outcomes st expected actual allow_inheritance e a :
  constructed st -> st !! expected = Some e -> st !! actual = Some a ->
  if allow_inheritance && kind_eqb (get_kind e) CLASS then
    match dynamic_cast_IClassType a with
    | None =>
        assert_type_match st expected actual allow_inheritance
        = Some (Throw bad_cast)
    | Some _ =>
        (on_base_chain st actual expected ->
         assert_type_match st expected actual allow_inheritance = Some (Ret tt)) /\
        (~ on_base_chain st actual expected ->
         assert_type_match st expected actual allow_inheritance
         = Some (Throw (type_mismatch e a allow_inheritance)))
    end
  else
    (expected = actual ->
     assert_type_match st expected actual allow_inheritance = Some (Ret tt)) /\
    (expected <> actual ->
     assert_type_match st expected actual allow_inheritance
     = Some (Throw (type_mismatch e a allow_inheritance))).
Proof.
  intros Hwf%constructed_well_founded He Ha. unfold assert_type_match.
  rewrite He, Ha.
  destruct (allow_inheritance && kind_eqb (get_kind e) CLASS) eqn:Hgate.
  - destruct a as [t | t b]; simpl; [done |].
    assert (Hc : is_class st actual) by by eexists _, _.
    destruct (inherits_decides st actual expected Hwf Hc) as (r & -> & Hiff).
    split.
    + intros Hch. apply Hiff in Hch as ->. done.
    + intros Hch. destruct r; [by destruct Hch; apply Hiff |].
      destruct (Nat.eqb_spec expected actual) as [-> | _]; [| done].
      destruct Hch. constructor.
  - split.
    + intros ->. by rewrite Nat.eqb_refl.
    + intros Hne. by destruct (Nat.eqb_spec expected actual).
Qed.

(** C2, at the input where the code leaves the claim: the expected type is
    the class [X], the actual type is the primitive [int], and inheritance
    is allowed. The reference [dynamic_cast] throws [std::bad_cast]; the type
    mismatch error naming both types is not raised. *)
Theorem assert_type_match_bad_cast_on_non_class :
  assert_type_match Samples.with_Y 1 0 true = Some (Throw bad_cast) /\
  assert_type_match Samples.with_Y 1 0 true
  <> Some (Throw (runtime_error
       "Type mismatch. (expected=X, actual=int, allow_inheritance=1)")) /\
  assert_type_match Samples.with_Y 1 0 false
  = Some (Throw (runtime_error
       "Type mismatch. (expected=X, actual=int, allow_inheritance=0)")).
Proof. repeat split. discriminate. Qed.

(** A base of kind [CLASS] that is no [IClassType] is refused by the second
    check of the constructor, and the reference cast of [assert_type_match]
    throws on it even when it is compared with itself. *)
Example class_kind_without_IClassType :
  IClassType_ctor "W" (Some 3) Samples.schema Samples.with_Fake
  = Throw (runtime_error "base_class must inherit IClassType!") /\
  assert_type_match Samples.with_Fake 3 3 true = Some (Throw bad_cast) /\
  assert_type_match Samples.with_Fake 3 3 false = Some (Ret tt).
Proof. repeat split. Qed.

(** The inheritance dispatch of the specification: [Y] derives from [X]. *)
Example assert_type_match_derived :
  assert_type_match Samples.with_Y 1 2 true = Some (Ret tt) /\
  assert_type_match Samples.with_Y 1 2 false
  = Some (Throw (runtime_error
       "Type mismatch. (expected=X, actual=Y, allow_inheritance=0)")) /\
  assert_type_match Samples.with_Y 2 2 false = Some (Ret tt).
Proof. repeat split. Qed.

End TypeSystemFacts.

(** ** Values and casters *)
Module CastingFacts.
Import Casting.

Section WithPlatform.
Context `{Platform}.

Lemma bind_Ret {A B} (m : M A) (k : A -> M B) st a st' :
  m st = (Ret a, st') -> (m ≫= k) st = k a st'.
Proof. intros Hm. unfold mbind, M_bind. by rewrite Hm. Qed.

Lemma grows_refl st : grows st st.
Proof. split; [done |]. intros lookup s p Hl Hs. by exists lookup. Qed.

Lemma grows_trans st1 st2 st3 : grows st1 st2 -> grows st2 st3 -> grows st1 st3.
Proof.
  intros [Hn1 Hl1] [Hn2 Hl2]. split; [lia |].
  intros lookup s p Hl Hs.
  destruct (Hl1 _ _ _ Hl Hs) as (lookup' & Hl' & Hs'). eauto.
Qed.

Lemma value_ok_grows st st' v : grows st st' -> value_ok st v -> value_ok st' v.
Proof.
  intros [_ Hl] (lookup & Hlk & Hv).
  destruct (Hl _ _ _ Hlk Hv) as (lookup' & ? & ?). by exists lookup'.
Qed.

Lemma registry_ok_initial : registry_ok initial.
Proof.
  split; [split |]; simpl.
  - intros p x Hp. by rewrite lookup_empty in Hp.
  - intros p vc Hp. by rewrite lookup_empty in Hp.
  - intros lookup s p Hl. discriminate.
Qed.

(** A registered caster converts from the table's source type to the
    destination it is keyed by, and was allocated before [next_addr]. *)
Lemma registered_Some st s d c :
  registry_ok st -> registered st s d = Some c ->
  hash_code (vc_SrcT c) = s /\ hash_code (vc_DestT c) = d /\
  vc_this c < next_addr st.
Proof.
  intros [[_ Halloc] Hreg]. unfold registered.
  destruct (s_caster_lookup st) as [lookup |] eqn:Hl; [| done]. simpl.
  destruct (lookup !! s) as [p |] eqn:Hs; [| done]. simpl.
  destruct (Hreg _ _ _ eq_refl Hs) as (vc & Hvc & _ & Hcasts).
  rewrite Hvc. simpl. intros Hc.
  destruct (Hcasts _ _ Hc) as [? ?]. destruct (Halloc _ _ Hvc) as [_ Hlt].
  eauto.
Qed.

(** Two entries of [s_caster_lookup] never share a [ValueCaster]. *)
Lemma lookup_injective st lookup s s' p :
  registry_ok st -> s_caster_lookup st = Some lookup ->
  lookup !! s = Some p -> lookup !! s' = Some p -> s = s'.
Proof.
  intros [_ Hreg] Hl Hs Hs'.
  destruct (Hreg _ _ _ Hl Hs) as (vc & Hvc & <- & _).
  destruct (Hreg _ _ _ Hl Hs') as (vc' & Hvc' & <- & _).
  congruence.
Qed.

(** [ValueCaster::get] returns the table of the type, creating an empty one
    when the type has none; what is registered does not change. *)
Lemma ValueCaster_get_spec T st :
  registry_ok st ->
  exists p st' lookup',
    ValueCaster_get T st = (Ret p, st') /\
    registry_ok st' /\ grows st st' /\
    heap st' = heap st /\
    s_caster_lookup st' = Some lookup' /\ lookup' !! hash_code T = Some p /\
    forall s d, registered st' s d = registered st s d.
Proof.
  intros Hok. pose proof Hok as [[Hheap Hcasters] Hreg].
  unfold ValueCaster_get.
  destruct (default ∅ (s_caster_lookup st) !! hash_code T) as [p |] eqn:Hp.
  - destruct (s_caster_lookup st) as [lookup |] eqn:Hl; simpl in Hp;
      [| by rewrite lookup_empty in Hp].
    eexists p, _, lookup. split; [done |]. simpl.
    split; [| split; [| repeat split; [done |]]].
    + split; [done |]. simpl. intros lookup0 s q [= <-]. by apply Hreg.
    + split; [done |]. simpl. intros lookup0 s q Hl0 Hs.
      rewrite Hl in Hl0. injection Hl0 as <-. eauto.
    + intros s d. unfold registered. simpl. by rewrite Hl.
  - set (lookup := default ∅ (s_caster_lookup st)) in *.
    assert (Hsame : forall s q, lookup !! s = Some q ->
              exists lookup0, s_caster_lookup st = Some lookup0 /\
                              lookup0 !! s = Some q).
    { intros s q Hs. subst lookup.
      destruct (s_caster_lookup st) as [lookup0 |]; simpl in Hs;
        [eauto | by rewrite lookup_empty in Hs]. }
    eexists (next_addr st), _, _. split; [done |]. simpl.
    split; [| split; [| split; [done | split; [done | split]]]].
    + split; [split |]; simpl.
      * intros q x Hq. apply Hheap in Hq. lia.
      * intros q vc Hq. apply lookup_insert_Some in Hq as [[<- <-] | [Hne Hq]].
        -- split; [lia |]. simpl. intros d c Hc. by rewrite lookup_empty in Hc.
        -- destruct (Hcasters _ _ Hq) as [? Hc]. split; [lia |].
           intros d c Hd. specialize (Hc _ _ Hd). lia.
      * intros lookup0 s q [= <-] Hs.
        apply lookup_insert_Some in Hs as [[<- <-] | [Hne Hs]].
        -- eexists. rewrite lookup_insert_eq. split; [done |]. simpl.
           split; [done |]. intros d c Hc. by rewrite lookup_empty in Hc.
        -- destruct (Hsame _ _ Hs) as (lookup0 & Hl0 & Hs0).
           destruct (Hreg _ _ _ Hl0 Hs0) as (vc & Hvc & Hrest).
           exists vc. split; [| done].
           rewrite lookup_insert_ne; [done |].
           destruct (Hcasters _ _ Hvc). lia.
    + split; [simpl; lia |]. simpl. intros lookup0 s q Hl0 Hs.
      eexists. split; [done |].
      assert (lookup = lookup0) as -> by (subst lookup; by rewrite Hl0).
      rewrite lookup_insert_ne; [done |]. congruence.
    + apply lookup_insert_eq.
    + intros s d. unfold registered. simpl.
      destruct (decide (hash_code T = s)) as [<- | Hne].
      * rewrite lookup_insert_eq. simpl. rewrite lookup_insert_eq. simpl.
        rewrite lookup_empty.
        destruct (s_caster_lookup st) as [lookup0 |] eqn:Hl0; [| done].
        simpl. subst lookup. simpl in Hp. by rewrite Hp.
      * rewrite lookup_insert_ne by done.
        destruct (s_caster_lookup st) as [lookup0 |] eqn:Hl0;
          subst lookup; simpl; [| by rewrite lookup_empty].
        destruct (lookup0 !! s) as [q |] eqn:Hs; [| done]. simpl.
        destruct (Hreg _ _ _ eq_refl Hs) as (vc & Hvc & _).
        rewrite lookup_insert_ne; [done |].
        destruct (Hcasters _ _ Hvc). lia.
Qed.

(** [add_caster] on the table of [SrcT] puts a newly allocated caster under
    the destination's hash, and leaves every other pair as it was. *)
Lemma add_caster_spec st lookup this SrcT DestT :
  registry_ok st -> s_caster_lookup st = Some lookup ->
  lookup !! hash_code SrcT = Some this ->
  exists st',
    add_caster this SrcT DestT st = (Ret tt, st') /\
    registry_ok st' /\ grows st st' /\ heap st' = heap st /\
    next_addr st' = S (next_addr st) /\
    registered st' (hash_code SrcT) (hash_code DestT)
    = Some {| vc_this := next_addr st; vc_SrcT := SrcT; vc_DestT := DestT |} /\
    forall s d, (s, d) <> (hash_code SrcT, hash_code DestT) ->
      registered st' s d = registered st s d.
Proof.
  intros Hok Hl Hthis. pose proof Hok as [[Hheap Hcasters] Hreg].
  destruct (Hreg _ _ _ Hl Hthis) as (vc & Hvc & Hsrc & Hcasts).
  unfold add_caster. rewrite Hvc. eexists. split; [done |]. simpl.
  split; [| split; [| split; [done | split; [done | split]]]].
  - split; [split |]; simpl.
    + intros q x Hq. apply Hheap in Hq. lia.
    + intros q vc' Hq. apply lookup_insert_Some in Hq as [[<- <-] | [Hne Hq]].
      * destruct (Hcasters _ _ Hvc) as [? Hc]. split; [lia |]. simpl.
        intros d c Hd. apply lookup_insert_Some in Hd as [[_ <-] | [_ Hd]].
        -- simpl. lia.
        -- specialize (Hc _ _ Hd). lia.
      * destruct (Hcasters _ _ Hq) as [? Hc]. split; [lia |].
        intros d c Hd. specialize (Hc _ _ Hd). lia.
    + intros lookup0 s q Hl0 Hs. rewrite Hl in Hl0. injection Hl0 as <-.
      destruct (decide (q = this)) as [-> | Hne].
      * rewrite lookup_insert_eq. eexists. split; [done |]. simpl.
        assert (s = hash_code SrcT) as -> by by eapply lookup_injective.
        split; [done |]. intros d c Hd.
        apply lookup_insert_Some in Hd as [[<- <-] | [_ Hd]]; [done |].
        by apply Hcasts.
      * rewrite lookup_insert_ne by done. by eapply Hreg.
  - split; [simpl; lia |]. simpl. intros lookup0 s q Hl0 Hs. eauto.
  - unfold registered. simpl. rewrite Hl. simpl. rewrite Hthis. simpl.
    rewrite lookup_insert_eq. simpl. by rewrite lookup_insert_eq.
  - intros s d Hne. unfold registered. simpl. rewrite Hl. simpl.
    destruct (lookup !! s) as [q |] eqn:Hs; [| done]. simpl.
    destruct (decide (q = this)) as [-> | Hq].
    + rewrite lookup_insert_eq, Hvc. simpl.
      assert (s = hash_code SrcT) as -> by by eapply lookup_injective.
      rewrite lookup_insert_ne; [done |]. congruence.
    + by rewrite lookup_insert_ne.
Qed.

(** [declare<SrcT, DestT>()] always succeeds; afterwards the pair has the
    caster this call allocated, and no other pair changed. *)
Lemma declare_spec st SrcT DestT :
  registry_ok st ->
  exists st' c,
    declare SrcT DestT st = (Ret tt, st') /\
    registry_ok st' /\ grows st st' /\ heap st' = heap st /\
    registered st' (hash_code SrcT) (hash_code DestT) = Some c /\
    vc_SrcT c = SrcT /\ vc_DestT c = DestT /\
    next_addr st <= vc_this c < next_addr st' /\
    forall s d, (s, d) <> (hash_code SrcT, hash_code DestT) ->
      registered st' s d = registered st s d.
Proof.
  intros Hok.
  destruct (ValueCaster_get_spec SrcT st Hok)
    as (p & st1 & lookup1 & Hget & Hok1 & Hgrow1 & Hheap1 & Hl1 & Hp & Hsame1).
  destruct (add_caster_spec st1 lookup1 p SrcT DestT Hok1 Hl1 Hp)
    as (st2 & Hadd & Hok2 & Hgrow2 & Hheap2 & Hnext & Hnew & Hother).
  exists st2, {| vc_this := next_addr st1; vc_SrcT := SrcT; vc_DestT := DestT |}.
  split; [unfold declare; by rewrite (bind_Ret _ _ _ _ _ Hget) |].
  split; [done |]. split; [by eapply grows_trans |].
  split; [congruence |]. split; [done |]. split; [done |]. split; [done |].
  split; [simpl; destruct Hgrow1; lia |].
  intros s d Hne. rewrite Hother by done. apply Hsame1.
Qed.

(** [make_value<T>(value)] always succeeds: the new [Value] owns storage
    that was not in use, now holding [value]; no other storage changed,
    and what is registered did not either. *)
Lemma make_value_spec st T value :
  registry_ok st ->
  exists v st',
    make_value T value st = (Ret v, st') /\
    registry_ok st' /\ grows st st' /\ value_ok st' v /\
    m_ptr_is_owned v = true /\ m_type_hash v = hash_code T /\
    heap st !! m_value_ptr v = None /\
    heap st' = <[m_value_ptr v := value]> (heap st) /\
    forall s d, registered st' s d = registered st s d.
Proof.
  intros Hok. pose proof Hok as [[Hheap Hcasters] Hreg].
  set (st1 := {| next_addr := S (next_addr st);
                 heap := <[next_addr st := value]> (heap st);
                 casters := casters st;
                 s_caster_lookup := s_caster_lookup st |}).
  assert (Hok1 : registry_ok st1).
  { split; [split |]; simpl.
    - intros q x Hq. apply lookup_insert_Some in Hq as [[<- _] | [_ Hq]]; [lia |].
      apply Hheap in Hq. lia.
    - intros q vc Hq. destruct (Hcasters _ _ Hq) as [? Hc]. split; [lia |].
      intros d c Hd. specialize (Hc _ _ Hd). lia.
    - done. }
  destruct (ValueCaster_get_spec T st1 Hok1)
    as (p & st2 & lookup2 & Hget & Hok2 & Hgrow2 & Hheap2 & Hl2 & Hp & Hsame2).
  eexists _, st2. split.
  { unfold make_value, set_type.
    rewrite (bind_Ret _ _ st (next_addr st) st1) by done.
    by rewrite (bind_Ret _ _ _ _ _ Hget). }
  simpl. split; [done |]. split.
  { eapply grows_trans; [| done]. split; [simpl; lia | simpl; eauto]. }
  split; [by exists lookup2 |]. split; [done |]. split; [done |]. split.
  { destruct (heap st !! next_addr st) eqn:Hfree; [| done].
    apply Hheap in Hfree. lia. }
  split; [done |]. intros s d. by rewrite Hsame2.
Qed.

(** [make_reference<T>(value)] always succeeds: the new [Value] refers to
    the storage given and does not own it; no storage changes. *)
Lemma make_reference_spec st T ptr :
  registry_ok st ->
  exists v st',
    make_reference T ptr st = (Ret v, st') /\
    registry_ok st' /\ grows st st' /\ value_ok st' v /\
    is_reference v = true /\ m_value_ptr v = ptr /\
    m_type_hash v = hash_code T /\ heap st' = heap st.
Proof.
  intros Hok.
  destruct (ValueCaster_get_spec T st Hok)
    as (p & st' & lookup' & Hget & Hok' & Hgrow & Hheap & Hl & Hp & _).
  eexists _, st'. split.
  { unfold make_reference, set_type. by rewrite (bind_Ret _ _ _ _ _ Hget). }
  split; [done |]. split; [done |]. split; [by exists lookup' |]. done.
Qed.

(** C4. On an owning [Value] holding [T], [release<T>()] returns the held
    pointer and leaves the [Value] a reference to the same storage; a
    second [release<T>()] then throws. On a [Value] that does not own its
    storage, or holds another type, [release<T>()] throws and changes
    nothing. *)
Theorem release_gives_up_ownership_once (T : type_info) (v : Value) :
  (m_ptr_is_owned v = true -> is_ T v = true ->
   exists v',
     release T v = (Ret (m_value_ptr v), v') /\
     is_reference v' = true /\
     m_value_ptr v' = m_value_ptr v /\ m_type_hash v' = m_type_hash v /\
     release T v'
     = (Throw (runtime_error "Cannot release ownership from a reference Value."),
        v')) /\
  (m_ptr_is_owned v = false \/ is_ T v = false ->
   exists what, release T v = (Throw (runtime_error what), v)).
Proof.
  split.
  - intros Hown HT. eexists. unfold release at 1, is_reference.
    rewrite Hown, HT. simpl. split; [done |]. by repeat split.
  - unfold release, is_reference. intros [-> | HT]; simpl; [by eexists |].
    destruct (m_ptr_is_owned v); simpl; [| by eexists].
    rewrite HT. simpl. by eexists.
Qed.

Lemma release_gives_up_ownership_once_witness :
  (exists v',
     release Samples.int32_t Samples.owned_int = (Ret 7, v') /\
     is_reference v' = true /\
     exists what, release Samples.int32_t v' = (Throw (runtime_error what), v')) /\
  (exists what,
     release Samples.uint8_t Samples.owned_int
     = (Throw (runtime_error what), Samples.owned_int)).
Proof.
  destruct (release_gives_up_ownership_once Samples.int32_t Samples.owned_int)
    as [Hfirst _].
  destruct (release_gives_up_ownership_once Samples.uint8_t Samples.owned_int)
    as [_ Hother].
  split.
  - destruct (Hfirst eq_refl eq_refl) as (v' & Hrel & Href & _ & _ & Hagain).
    exists v'. split; [exact Hrel |]. split; [exact Href |].
    eexists. exact Hagain.
  - apply Hother. right. reflexivity.
Defined.

(** C9. [get<T>()] leaves the [Value] as it was, its ownership flag
    included, whether it returns or throws; it returns the held storage
    when the held type is [T], and throws exactly when it is not. *)
Theorem get_leaves_ownership (T : type_info) (v : Value) :
  (get T v).2 = v /\
  m_ptr_is_owned (get T v).2 = m_ptr_is_owned v /\
  (m_type_hash v = hash_code T -> (get T v).1 = Ret (m_value_ptr v)) /\
  ((exists e, (get T v).1 = Throw e) <-> m_type_hash v <> hash_code T).
Proof.
  unfold get, is_.
  destruct (N.eqb_spec (m_type_hash v) (hash_code T)) as [Heq | Hne]; simpl.
  - split; [done |]. split; [done |]. split; [done |].
    split; [by intros [e He] | done].
  - split; [done |]. split; [done |]. split; [done |].
    split; [done | intros _; by eexists].
Qed.

(** C3. On a [Value] of a sound registry whose storage holds [x]:
    [as<T>()] on a [Value] holding [T] returns a new owning [Value] with a
    copy of [x]; on a [Value] of another type it returns a new owning
    [Value] of type [T] holding what the caster registered for the pair
    makes of [x], and throws a [cast_error] from the held type to [T],
    changing nothing, when no caster is registered for the pair. *)
Theorem as_copies_or_casts (st : State) (v : Value) (T : type_info) (x : payload) :
  registry_ok st -> value_ok st v -> heap st !! m_value_ptr v = Some x ->
  if is_ T v then
    exists v' st', as_ T v st = (Ret v', st') /\ new_owning st st' v' T x
  else
    match registered st (m_type_hash v) (hash_code T) with
    | Some c =>
        exists v' st',
          as_ T v st = (Ret v', st') /\
          new_owning st st' v' T (static_cast (vc_SrcT c) (vc_DestT c) x)
    | None =>
        exists src,
          as_ T v st = (Throw (cast_error src T), st) /\
          hash_code src = m_type_hash v
    end.
Proof.
  intros Hok (lookup & Hl & Hv) Hx. unfold as_.
  assert (Hload : load (m_value_ptr v) st = (Ret x, st))
    by (unfold load; by rewrite Hx).
  destruct (is_ T v) eqn:HT; simpl.
  - destruct (make_value_spec st T x Hok)
      as (v' & st' & Hmk & Hok' & _ & Hv' & Hown & Hty & Hfree & Hheap & _).
    exists v', st'. split; [by rewrite (bind_Ret _ _ _ _ _ Hload) |].
    unfold new_owning. repeat (split; [done |]). done.
  - pose proof Hok as [_ Hreg].
    destruct (Hreg _ _ _ Hl Hv) as (vc & Hvc & Hsrc & Hcasts).
    unfold registered, cast_value. rewrite Hl. simpl. rewrite Hv. simpl.
    rewrite Hvc. simpl.
    destruct (m_casts vc !! hash_code T) as [c |] eqn:Hc; [| by eexists].
    destruct (Hcasts _ _ Hc) as [HS HD].
    unfold value_caster_cast, get, is_. rewrite HS, N.eqb_refl. simpl.
    rewrite (bind_Ret _ _ _ _ _ Hload).
    destruct (make_value_spec st (vc_DestT c)
                (static_cast (vc_SrcT c) (vc_DestT c) x) Hok)
      as (v' & st' & Hmk & Hok' & _ & Hv' & Hown & Hty & Hfree & Hheap & _).
    exists v', st'. split; [done |].
    unfold new_owning. split; [done |]. split; [congruence |].
    repeat (split; [done |]). done.
Qed.

(** *** Runs of declarations *)

Lemma declare_each_spec ds : forall st,
  registry_ok st ->
  exists st',
    declare_each ds st = (Ret tt, st') /\
    registry_ok st' /\ grows st st' /\ heap st' = heap st /\
    forall s d,
      match last_declared ds s d with
      | Some (SrcT, DestT) =>
          exists c, registered st' s d = Some c /\
            vc_SrcT c = SrcT /\ vc_DestT c = DestT /\
            next_addr st <= vc_this c < next_addr st'
      | None => registered st' s d = registered st s d
      end.
Proof.
  induction ds as [| [SrcT DestT] ds IH]; intros st Hok.
  - exists st. split; [done |]. split; [done |]. split; [apply grows_refl |].
    split; [done |]. by intros s d.
  - destruct (declare_spec st SrcT DestT Hok)
      as (st1 & c1 & Hdecl & Hok1 & Hgrow1 & Hheap1 & Hc1 & HS & HD & Haddr & Hother).
    destruct (IH st1 Hok1) as (st2 & Hrun & Hok2 & Hgrow2 & Hheap2 & Hlast).
    exists st2. split; [simpl; by rewrite (bind_Ret _ _ _ _ _ Hdecl) |].
    split; [done |]. split; [by eapply grows_trans |]. split; [congruence |].
    intros s d. specialize (Hlast s d). simpl.
    destruct (last_declared ds s d) as [[S' D'] |].
    + destruct Hlast as (c & Hc & ? & ? & ?). exists c.
      destruct Hgrow1. repeat split; [done .. | lia | lia].
    + rewrite Hlast.
      destruct (N.eqb_spec (hash_code SrcT) s) as [<- | Hs]; simpl.
      * destruct (N.eqb_spec (hash_code DestT) d) as [<- | Hd].
        -- exists c1. destruct Hgrow2. repeat split; [done .. | lia | lia].
        -- apply Hother. congruence.
      * apply Hother. congruence.
Qed.

Lemma declare_each_app ds1 ds2 : forall st st1,
  declare_each ds1 st = (Ret tt, st1) ->
  declare_each (ds1 ++ ds2) st = declare_each ds2 st1.
Proof.
  induction ds1 as [| [SrcT DestT] ds1 IH]; intros st st1; simpl.
  - by intros [= <-].
  - unfold mbind, M_bind.
    destruct (declare SrcT DestT st) as [[[] | e |] st0]; [| done | done].
    apply IH.
Qed.

(** C7. The registry keeps one caster per pair of source and destination
    (the pair's entry of the source type's table). From a sound registry,
    any run of [declare] calls succeeds; afterwards a pair the run declared
    holds a caster for the types of the run's last declaration of the pair,
    an object other than the one the pair held before, and a pair the run
    did not declare holds what it held. The caster a pair holds is the
    object that the most recent [declare] of the pair allocated. *)
Theorem declare_keeps_latest_caster (st : State) :
  registry_ok st ->
  (forall ds, exists st',
     declare_each ds st = (Ret tt, st') /\ registry_ok st' /\
     forall s d,
       match last_declared ds s d with
       | Some (SrcT, DestT) =>
           exists c, registered st' s d = Some c /\
             vc_SrcT c = SrcT /\ vc_DestT c = DestT /\
             forall c0, registered st s d = Some c0 -> vc_this c0 < vc_this c
       | None => registered st' s d = registered st s d
       end) /\
  (forall ds1 SrcT DestT ds2,
     last_declared ds2 (hash_code SrcT) (hash_code DestT) = None ->
     exists st1 st2 st3 c,
       declare_each ds1 st = (Ret tt, st1) /\
       declare SrcT DestT st1 = (Ret tt, st2) /\
       declare_each (ds1 ++ (SrcT, DestT) :: ds2) st = (Ret tt, st3) /\
       registered st3 (hash_code SrcT) (hash_code DestT) = Some c /\
       vc_SrcT c = SrcT /\ vc_DestT c = DestT /\
       next_addr st1 <= vc_this c < next_addr st2).
Proof.
  intros Hok. split.
  - intros ds.
    destruct (declare_each_spec ds st Hok) as (st' & Hrun & Hok' & _ & _ & Hlast).
    exists st'. split; [done |]. split; [done |].
    intros s d. specialize (Hlast s d).
    destruct (last_declared ds s d) as [[SrcT DestT] |]; [| done].
    destruct Hlast as (c & Hc & ? & ? & ?). exists c.
    repeat split; [done .. |].
    intros c0 Hc0. apply (registered_Some _ _ _ _ Hok) in Hc0. lia.
  - intros ds1 SrcT DestT ds2 Hnone.
    destruct (declare_each_spec ds1 st Hok) as (st1 & Hrun1 & Hok1 & _).
    destruct (declare_spec st1 SrcT DestT Hok1)
      as (st2 & c & Hdecl & Hok2 & _ & _ & Hc & HS & HD & Haddr & _).
    destruct (declare_each_spec ds2 st2 Hok2) as (st3 & Hrun2 & _ & _ & _ & Hlast).
    exists st1, st2, st3, c. split; [done |]. split; [done |]. split.
    { rewrite (declare_each_app _ _ _ _ Hrun1). simpl.
      by rewrite (bind_Ret _ _ _ _ _ Hdecl). }
    specialize (Hlast (hash_code SrcT) (hash_code DestT)).
    rewrite Hnone in Hlast. by rewrite Hlast.
Qed.

(** *** The two-type cast *)

Lemma ValueCaster_get_found T st lookup p :
  s_caster_lookup st = Some lookup -> lookup !! hash_code T = Some p ->
  ValueCaster_get T st = (Ret p, st).
Proof.
  intros Hl Hp. unfold ValueCaster_get. rewrite Hl. simpl. rewrite Hp.
  destruct st; simpl in *. by subst.
Qed.

Lemma ValueCaster_get_total T st :
  exists p st' lookup',
    ValueCaster_get T st = (Ret p, st') /\
    s_caster_lookup st' = Some lookup' /\ lookup' !! hash_code T = Some p.
Proof.
  unfold ValueCaster_get.
  destruct (default ∅ (s_caster_lookup st) !! hash_code T) as [p |] eqn:Hp.
  - by eexists _, _, _.
  - eexists _, _, _. split; [done |]. simpl. split; [done |].
    apply lookup_insert_eq.
Qed.

Lemma make_value_total T value st :
  exists v st', make_value T value st = (Ret v, st').
Proof.
  unfold make_value, set_type, new_copy, mbind, M_bind.
  match goal with
  | |- context [ValueCaster_get T ?s] =>
      destruct (ValueCaster_get_total T s) as (p & st' & _ & -> & _)
  end.
  by eexists _, _.
Qed.

(** A caster throws a [runtime_error] on a [Value] of another type than its
    source, never a [cast_error]. *)
Lemma value_caster_cast_outcomes c v st :
  if is_ (vc_SrcT c) v then
    match heap st !! m_value_ptr v with
    | Some x =>
        value_caster_cast c v st
        = make_value (vc_DestT c) (static_cast (vc_SrcT c) (vc_DestT c) x) st
    | None => value_caster_cast c v st = (Undefined, st)
    end
  else
    value_caster_cast c v st
    = (Throw (runtime_error "Invalid call to Value::get<T>."), st).
Proof.
  unfold value_caster_cast, get.
  destruct (is_ (vc_SrcT c) v); simpl; [| done].
  unfold mbind, M_bind, load. by destruct (heap st !! m_value_ptr v).
Qed.

Lemma value_caster_cast_no_cast_error c v st src dest st' :
  value_caster_cast c v st <> (Throw (cast_error src dest), st').
Proof.
  pose proof (value_caster_cast_outcomes c v st) as Hout.
  destruct (is_ (vc_SrcT c) v); [| by rewrite Hout].
  destruct (heap st !! m_value_ptr v) as [x |]; [| by rewrite Hout].
  rewrite Hout.
  by destruct (make_value_total (vc_DestT c)
                 (static_cast (vc_SrcT c) (vc_DestT c) x) st) as (? & ? & ->).
Qed.

Lemma cast_no_cast_error SrcT DestT v st src dest st' :
  cast SrcT DestT v st <> (Throw (cast_error src dest), st').
Proof.
  unfold cast, declare, mbind, M_bind.
  destruct (ValueCaster_get_total SrcT st) as (p & st1 & lookup1 & -> & Hl1 & Hp).
  unfold add_caster. destruct (casters st1 !! p) as [vc |] eqn:Hvc; [| done].
  erewrite ValueCaster_get_found; [| exact Hl1 | exact Hp].
  unfold cast_value. simpl. rewrite lookup_insert_eq. simpl.
  rewrite lookup_insert_eq. apply value_caster_cast_no_cast_error.
Qed.

(** C10. [ValueCaster::cast<SrcT, DestT>(value)] declares the caster of the
    pair before it looks it up, so in no state does it throw a
    [cast_error]: from a sound registry it returns a new owning [Value]
    of [DestT] holding the converted value when [value] holds [SrcT], and
    throws the [runtime_error] of [Value::get] when it does not. The paths
    that only look up, [cast_value] and [cast<DestT>(src_type, value)],
    throw a [cast_error] when the pair has no caster. *)
Theorem cast_declares_before_lookup (SrcT DestT : type_info) (v : Value)
    (st : State) :
  (forall src dest st', cast SrcT DestT v st <> (Throw (cast_error src dest), st')) /\
  (registry_ok st ->
   forall x, heap st !! m_value_ptr v = Some x ->
     if is_ SrcT v then
       exists v' st' c,
         cast SrcT DestT v st = (Ret v', st') /\
         new_owning st st' v' DestT (static_cast SrcT DestT x) /\
         registered st' (hash_code SrcT) (hash_code DestT) = Some c /\
         vc_SrcT c = SrcT /\ vc_DestT c = DestT
     else
       exists st',
         cast SrcT DestT v st
         = (Throw (runtime_error "Invalid call to Value::get<T>."), st')) /\
  (forall p vc,
     casters st !! p = Some vc -> m_casts vc !! hash_code DestT = None ->
     cast_value p DestT v st = (Throw (cast_error (m_src_type vc) DestT), st)) /\
  (forall lookup,
     s_caster_lookup st = Some lookup -> lookup !! hash_code SrcT = None ->
     cast_from DestT SrcT v st = (Throw (cast_error SrcT DestT), st)).
Proof.
  split; [intros src dest st'; apply cast_no_cast_error |].
  split; [| split].
  - intros Hok x Hx.
    destruct (declare_spec st SrcT DestT Hok)
      as (st2 & c & Hdecl & Hok2 & _ & Hheap2 & Hc & HS & HD & _).
    destruct (ValueCaster_get_spec SrcT st2 Hok2)
      as (p & st3 & lookup3 & Hget & Hok3 & _ & Hheap3 & Hl3 & Hp3 & Hsame3).
    assert (Hcast : cast SrcT DestT v st = value_caster_cast c v st3).
    { unfold cast. rewrite (bind_Ret _ _ _ _ _ Hdecl), (bind_Ret _ _ _ _ _ Hget).
      rewrite <- Hsame3 in Hc. unfold registered in Hc.
      rewrite Hl3 in Hc. simpl in Hc. rewrite Hp3 in Hc. simpl in Hc.
      unfold cast_value. destruct (casters st3 !! p) as [vc |]; [| done].
      simpl in Hc. by rewrite Hc. }
    pose proof (value_caster_cast_outcomes c v st3) as Hout.
    rewrite HS, HD, Hheap3, Hheap2, Hx in Hout.
    destruct (is_ SrcT v).
    + destruct (make_value_spec st3 DestT (static_cast SrcT DestT x) Hok3)
        as (v' & st' & Hmk & Hok' & _ & Hv' & Hown & Hty & Hfree & Hheap & Hsame).
      exists v', st', c. split; [congruence |].
      split; [| split; [| done]].
      * unfold new_owning. rewrite Hheap3, Hheap2 in Hfree, Hheap.
        repeat (split; [done |]). done.
      * rewrite Hsame, Hsame3.
        destruct (declare_spec st SrcT DestT Hok)
          as (st2' & c' & Hdecl' & _ & _ & _ & Hc' & _).
        congruence.
    + exists st3. congruence.
  - intros p vc Hvc Hnone. unfold cast_value. by rewrite Hvc, Hnone.
  - intros lookup Hl Hnone. unfold cast_from. by rewrite Hl, Hnone.
Qed.

End WithPlatform.

(** *** The sample process *)

Lemma declared_ok : registry_ok Samples.declared.
Proof.
  destruct (declare_spec initial Samples.int32_t Samples.uint8_t registry_ok_initial)
    as (st' & c & Hdecl & Hok & _).
  unfold Samples.declared. by rewrite Hdecl.
Qed.

Lemma with_300_ok :
  registry_ok Samples.with_300 /\
  value_ok Samples.with_300 Samples.held_300 /\
  heap Samples.with_300 !! m_value_ptr Samples.held_300 = Some 300%Z.
Proof.
  destruct (make_value_spec Samples.declared Samples.int32_t 300%Z declared_ok)
    as (v & st' & Hmk & Hok & _ & Hv & _ & _ & _ & Hheap & _).
  unfold Samples.with_300, Samples.held_300, Samples.result_of.
  rewrite Hmk. simpl. split; [done |]. split; [done |].
  rewrite Hheap. apply lookup_insert_eq.
Qed.

Lemma as_copies_or_casts_witness :
  (exists v' st',
     as_ Samples.int32_t Samples.held_300 Samples.with_300 = (Ret v', st') /\
     new_owning Samples.with_300 st' v' Samples.int32_t 300%Z) /\
  (exists v' st',
     as_ Samples.uint8_t Samples.held_300 Samples.with_300 = (Ret v', st') /\
     new_owning Samples.with_300 st' v' Samples.uint8_t 44%Z) /\
  (exists src,
     as_ Samples.int64_t Samples.held_300 Samples.with_300
     = (Throw (cast_error src Samples.int64_t), Samples.with_300) /\
     hash_code src = m_type_hash Samples.held_300).
Proof.
  destruct with_300_ok as (Hok & Hv & Hx).
  split; [| split].
  - exact (as_copies_or_casts Samples.with_300 Samples.held_300
             Samples.int32_t 300%Z Hok Hv Hx).
  - exact (as_copies_or_casts Samples.with_300 Samples.held_300
             Samples.uint8_t 300%Z Hok Hv Hx).
  - exact (as_copies_or_casts Samples.with_300 Samples.held_300
             Samples.int64_t 300%Z Hok Hv Hx).
Defined.

Lemma declare_keeps_latest_caster_witness :
  (exists st',
     declare_each
       [(Samples.int32_t, Samples.uint8_t); (Samples.int32_t, Samples.int64_t);
        (Samples.int32_t, Samples.uint8_t)] initial
     = (Ret tt, st') /\
     registry_ok st' /\
     (exists c, registered st' 1 2 = Some c /\ vc_DestT c = Samples.uint8_t) /\
     (exists c, registered st' 1 3 = Some c /\ vc_DestT c = Samples.int64_t) /\
     registered st' 2 1 = None) /\
  (exists st1 st2 st3 c,
     declare_each [(Samples.int32_t, Samples.uint8_t)] initial = (Ret tt, st1) /\
     declare Samples.int32_t Samples.uint8_t st1 = (Ret tt, st2) /\
     declare_each
       [(Samples.int32_t, Samples.uint8_t); (Samples.int32_t, Samples.uint8_t);
        (Samples.int32_t, Samples.int64_t)] initial
     = (Ret tt, st3) /\
     registered st3 1 2 = Some c /\
     next_addr st1 <= vc_this c < next_addr st2).
Proof.
  destruct (declare_keeps_latest_caster initial registry_ok_initial) as [Hrun Hlast].
  split.
  - destruct (Hrun [(Samples.int32_t, Samples.uint8_t);
                    (Samples.int32_t, Samples.int64_t);
                    (Samples.int32_t, Samples.uint8_t)])
      as (st' & Hst' & Hok & Hpairs).
    exists st'. split; [exact Hst' |]. split; [exact Hok |].
    split; [| split].
    + destruct (Hpairs 1%N 2%N) as (c & Hc & _ & HD & _). by exists c.
    + destruct (Hpairs 1%N 3%N) as (c & Hc & _ & HD & _). by exists c.
    + exact (Hpairs 2%N 1%N).
  - destruct (Hlast [(Samples.int32_t, Samples.uint8_t)]
                Samples.int32_t Samples.uint8_t
                [(Samples.int32_t, Samples.int64_t)] eq_refl)
      as (st1 & st2 & st3 & c & H1 & H2 & H3 & Hc & _ & _ & Haddr).
    by exists st1, st2, st3, c.
Defined.

Lemma cast_declares_before_lookup_witness :
  (exists v' st' c,
     cast Samples.int32_t Samples.uint8_t Samples.held_300 Samples.with_300
     = (Ret v', st') /\
     new_owning Samples.with_300 st' v' Samples.uint8_t 44%Z /\
     registered st' 1 2 = Some c) /\
  (exists st',
     cast Samples.uint8_t Samples.int64_t Samples.held_300 Samples.with_300
     = (Throw (runtime_error "Invalid call to Value::get<T>."), st')).
Proof.
  destruct with_300_ok as (Hok & _ & Hx).
  split.
  - destruct (cast_declares_before_lookup Samples.int32_t Samples.uint8_t
                Samples.held_300 Samples.with_300) as (_ & Hcast & _).
    destruct (Hcast Hok 300%Z Hx) as (v' & st' & c & Hrun & Hnew & Hc & _).
    by exists v', st', c.
  - destruct (cast_declares_before_lookup Samples.uint8_t Samples.int64_t
                Samples.held_300 Samples.with_300) as (_ & Hcast & _).
    exact (Hcast Hok 300%Z Hx).
Defined.

End CastingFacts.

(** ** The class codec *)
Module ClassCodecFacts.
Import ClassCodec.

Section WithCodec.
Context `{C : PropertyCodec}.

(** The iterator loop of [write_to] walks the declared list from its
    position to the end. *)
Lemma write_loop_declared_order fuel : forall (properties : list IProperty) it stream,
  it <= length properties -> length properties - it < fuel ->
  write_loop fuel properties it stream
  = Some (write_in_declared_order (drop it properties) stream).
Proof.
  induction fuel as [| fuel IH]; intros properties it stream Hle Hfuel; [lia |].
  simpl. destruct (Nat.eqb_spec it (length properties)) as [-> | Hne].
  { by rewrite drop_all. }
  destruct (lookup_lt_is_Some_2 properties it ltac:(lia)) as [prop Hprop].
  rewrite Hprop, (drop_S _ _ _ Hprop). simpl.
  destruct (write_value_to prop stream) as [[u | e |] stream']; [| done | done].
  apply IH; lia.
Qed.

(** The loop of [read_from] does the same, replacing each property by what
    the read made of it. *)
Lemma read_loop_declared_order fuel : forall (properties : list IProperty) it stream,
  it <= length properties -> length properties - it < fuel ->
  read_loop fuel properties it stream
  = Some (let '(o, rest, stream') :=
            read_in_declared_order (drop it properties) stream in
          (o, take it properties ++ rest, stream')).
Proof.
  induction fuel as [| fuel IH]; intros properties it stream Hle Hfuel; [lia |].
  simpl. destruct (Nat.eqb_spec it (length properties)) as [-> | Hne].
  { rewrite drop_all, take_ge by lia. simpl. by rewrite app_nil_r. }
  destruct (lookup_lt_is_Some_2 properties it ltac:(lia)) as [prop Hprop].
  rewrite Hprop, (drop_S _ _ _ Hprop). simpl.
  destruct (read_value_from prop stream) as [[[u | e |] prop'] stream'].
  - rewrite IH by (rewrite length_insert; lia).
    rewrite drop_insert_lt by lia.
    rewrite (take_S_r _ _ prop') by (apply list_lookup_insert_eq; lia).
    rewrite take_insert_ge by lia.
    destruct (read_in_declared_order (drop (S it) properties) stream')
      as [[o rest] stream''].
    by rewrite <- app_assoc.
  - by rewrite insert_take_drop by lia.
  - by rewrite insert_take_drop by lia.
Qed.

End WithCodec.

(** Under [traced], the log grows by the properties visited: a prefix of
    the declared list, all of it when no call failed. What the calls do to
    the stream is what they do untraced. *)
Lemma traced_write_order (C : PropertyCodec) (declared : list IProperty) :
  forall (stream : BitStream) (log : list IProperty),
  exists visited,
    write_in_declared_order (H := traced C) declared (stream, log)
    = ((write_in_declared_order declared stream).1,
       ((write_in_declared_order declared stream).2, log ++ visited)) /\
    visited `prefix_of` declared /\
    ((write_in_declared_order declared stream).1 = Ret tt -> visited = declared).
Proof.
  induction declared as [| prop rest IH]; intros stream log.
  - exists []. simpl. by rewrite app_nil_r.
  - simpl. destruct (write_value_to prop stream) as [[[] | e |] stream'] eqn:Hw.
    + destruct (IH stream' (log ++ [prop])) as (visited & Hrun & Hpre & Hall).
      exists (prop :: visited). rewrite Hrun, <- app_assoc. simpl.
      split; [done |]. split; [by apply prefix_cons |].
      intros Hret. by rewrite (Hall Hret).
    + exists [prop]. simpl. split; [done |].
      split; [apply prefix_cons, prefix_nil | done].
    + exists [prop]. simpl. split; [done |].
      split; [apply prefix_cons, prefix_nil | done].
Qed.

Lemma traced_read_order (C : PropertyCodec) (declared : list IProperty) :
  forall (stream : BitStream) (log : list IProperty),
  exists visited,
    read_in_declared_order (H := traced C) declared (stream, log)
    = ((read_in_declared_order declared stream).1,
       ((read_in_declared_order declared stream).2, log ++ visited)) /\
    visited `prefix_of` declared /\
    ((read_in_declared_order declared stream).1.1 = Ret tt -> visited = declared).
Proof.
  induction declared as [| prop rest IH]; intros stream log.
  - exists []. simpl. by rewrite app_nil_r.
  - simpl.
    destruct (read_value_from prop stream) as [[[[] | e |] prop'] stream'] eqn:Hr.
    + destruct (IH stream' (log ++ [prop])) as (visited & Hrun & Hpre & Hall).
      exists (prop :: visited). rewrite Hrun, <- app_assoc. simpl.
      destruct (read_in_declared_order rest stream') as [[o rest'] stream''].
      simpl in *. split; [done |]. split; [by apply prefix_cons |].
      intros Hret. by rewrite (Hall Hret).
    + exists [prop]. simpl. split; [done |].
      split; [apply prefix_cons, prefix_nil | done].
    + exists [prop]. simpl. split; [done |].
      split; [apply prefix_cons, prefix_nil | done].
Qed.

(** C5. [write_to] writes the properties of an object in their declared
    order and [read_from] reads them in that order: each is the
    front-to-back walk of the declared list, up to the first property whose
    call fails, and nothing but the properties' own calls touches the
    stream (no tag goes between them). The properties either visits are a
    prefix of the declared list and, when no call fails, the declared list
    itself: the same sequence for the writer and the reader. *)
Theorem class_codec_follows_declared_order (C : PropertyCodec)
    (object : @PropertyClass C) (stream : @BitStream C) :
  write_to stream object
  = Some (write_in_declared_order (get_properties object) stream) /\
  read_from stream object
  = Some (let '(o, properties', stream') :=
            read_in_declared_order (get_properties object) stream in
          (o, {| get_properties := properties' |}, stream')) /\
  exists o_w s_w visited_w o_r object' s_r visited_r,
    write_to (H := traced C) (stream, [])
      (@Build_PropertyClass (traced C) (get_properties object))
    = Some (o_w, (s_w, visited_w)) /\
    read_from (H := traced C) (stream, [])
      (@Build_PropertyClass (traced C) (get_properties object))
    = Some (o_r, object', (s_r, visited_r)) /\
    visited_w `prefix_of` get_properties object /\
    visited_r `prefix_of` get_properties object /\
    (o_w = Ret tt -> visited_w = get_properties object) /\
    (o_r = Ret tt -> visited_r = get_properties object) /\
    (o_w = Ret tt -> o_r = Ret tt -> visited_w = visited_r).
Proof.
  destruct object as [declared]. unfold write_to, read_from.
  cbn [get_properties].
  rewrite !write_loop_declared_order by lia.
  rewrite !read_loop_declared_order by lia.
  rewrite !drop_0. cbn [take app].
  split; [done |]. split.
  { by destruct (read_in_declared_order declared stream) as [[o rest] stream']. }
  destruct (traced_write_order C declared stream []) as (vw & -> & Hpw & Hallw).
  destruct (traced_read_order C declared stream []) as (vr & -> & Hpr & Hallr).
  destruct (write_in_declared_order declared stream) as [o_w s_w].
  destruct (read_in_declared_order declared stream) as [[o_r rest] s_r].
  simpl in *. eexists _, _, _, _, _, _, _.
  split; [done |]. split; [done |]. split; [done |]. split; [done |].
  split; [done |]. split; [done |].
  intros Hw Hr. by rewrite Hallw, Hallr.
Qed.

Lemma class_codec_follows_declared_order_witness :
  exists o_w s_w visited_w o_r object' s_r visited_r,
    write_to (H := traced Samples.queue_codec) ([], [])
      (@Build_PropertyClass (traced Samples.queue_codec)
         (get_properties Samples.three_fields))
    = Some (o_w, (s_w, visited_w)) /\
    read_from (H := traced Samples.queue_codec) ([], [])
      (@Build_PropertyClass (traced Samples.queue_codec)
         (get_properties Samples.three_fields))
    = Some (o_r, object', (s_r, visited_r)) /\
    visited_w `prefix_of` get_properties Samples.three_fields /\
    visited_r `prefix_of` get_properties Samples.three_fields /\
    (o_w = Ret tt -> visited_w = get_properties Samples.three_fields) /\
    (o_r = Ret tt -> visited_r = get_properties Samples.three_fields) /\
    (o_w = Ret tt -> o_r = Ret tt -> visited_w = visited_r).
Proof.
  exact (proj2 (proj2 (class_codec_follows_declared_order Samples.queue_codec
                         Samples.three_fields []))).
Defined.

(** The sample object: the writer visits [id], [level], [gold] and leaves
    their values on the queue in that order; the reader takes them off in
    the same order. *)
Example three_fields_order :
  write_to (H := traced Samples.queue_codec) ([], [])
    (@Build_PropertyClass (traced Samples.queue_codec)
       (get_properties Samples.three_fields))
  = Some (Ret tt, ([7; 42; 0]%Z, [("id", 7%Z); ("level", 42%Z); ("gold", 0%Z)])) /\
  read_from (H := Samples.queue_codec) [1; 2; 3]%Z Samples.three_fields
  = Some (Ret tt,
          @Build_PropertyClass Samples.queue_codec
            ([("id", 1%Z); ("level", 2%Z); ("gold", 3%Z)] : list (string * Z)),
          []).
Proof. split; reflexivity. Qed.

End ClassCodecFacts.

(** ** The primitive codec *)
Module PrimitiveCodecFacts.
Import PrimitiveCodec.

Lemma length_to_bits bit_width : forall value,
  length (to_bits bit_width value) = bit_width.
Proof. induction bit_width as [| w IH]; intros value; simpl; [done | by rewrite IH]. Qed.

(** [bit_width] bits hold a value modulo [2 ^ bit_width]. *)
Lemma of_bits_to_bits bit_width : forall value,
  of_bits (to_bits bit_width value) = (value mod 2 ^ Z.of_nat bit_width)%Z.
Proof.
  induction bit_width as [| w IH]; intros value.
  - simpl. by rewrite Z.mod_1_r.
  - cbn [to_bits of_bits]. rewrite IH.
    rewrite Nat2Z.inj_succ, Z.pow_succ_r by lia.
    assert (0 < 2 ^ Z.of_nat w)%Z by (apply Z.pow_pos_nonneg; lia).
    rewrite Z.rem_mul_r by lia.
    by rewrite <- Z.div2_div, <- Z.bit0_mod, Z.bit0_odd.
Qed.

(** What is read at the place of a write are the bits written. *)
Lemma bits_read_back (bits : list bool) (c : nat) (written : list bool) :
  let padded := bits ++ replicate (c - length bits) false in
  take (length written)
    (drop c (take c padded ++ written ++ drop (c + length written) padded)
     ++ replicate (length written) false)
  = written.
Proof.
  intros padded.
  assert (Hc : length (take c padded) = c).
  { rewrite length_take. subst padded. rewrite length_app, length_replicate. lia. }
  rewrite drop_app_length' by done.
  rewrite <- app_assoc. by rewrite take_app_length.
Qed.

(** The buffer of bits keeps the stream's contract. *)
Lemma bit_buffer_contract : stream_contract (H := bit_buffer_stream).
Proof.
  intros T value bit_width s Hrep. simpl. unfold buffer_read, buffer_write. simpl.
  pose proof (bits_read_back (buffer s) (cursor s) (to_bits bit_width value)) as Hbits.
  rewrite length_to_bits in Hbits. simpl in Hbits. rewrite Hbits.
  rewrite of_bits_to_bits. unfold representable in Hrep.
  assert (0 < 2 ^ Z.of_nat bit_width)%Z by (apply Z.pow_pos_nonneg; lia).
  destruct (is_unsigned T).
  - by apply Z.mod_small.
  - destruct bit_width as [| w].
    { simpl in Hrep. lia. }
    replace (Z.of_nat (S w) - 1)%Z with (Z.of_nat w) in * by lia.
    assert (2 ^ Z.of_nat (S w) = 2 * 2 ^ Z.of_nat w)%Z as Hpow
      by (rewrite Nat2Z.inj_succ, Z.pow_succ_r; lia).
    rewrite Hpow in *.
    destruct (Z.ltb_spec (value mod (2 * 2 ^ Z.of_nat w)) (2 ^ Z.of_nat w)) as [Hlt | Hge].
    + destruct (Z.neg_nonneg_cases value) as [Hneg | Hpos].
      * rewrite <- (Z.mod_add value 1), Z.mod_small in Hlt; lia.
      * apply Z.mod_small. lia.
    + destruct (Z.neg_nonneg_cases value) as [Hneg | Hpos].
      * rewrite <- (Z.mod_add value 1), Z.mod_small; lia.
      * rewrite Z.mod_small in Hge; lia.
Qed.

(** C6. The writer of an integral type writes the value with the width
    [bitsizeof<ValueT>] and the reader reads with that same width; so, on a
    stream that keeps its contract, reading where a value of the type was
    written gives back the value. *)
Theorem primitive_codec_round_trip `{BitStreamAPI} (ValueT : integral) :
  (forall stream value,
     write_to ValueT stream value
     = stream_write ValueT value (bitsizeof ValueT) stream) /\
  (forall stream,
     read_from ValueT stream = stream_read ValueT (bitsizeof ValueT) stream) /\
  (stream_contract ->
   forall stream value, value_of ValueT value ->
     (read_from ValueT (seek (tell stream) (write_to ValueT stream value))).1
     = value).
Proof.
  split; [done |]. split; [done |].
  intros Hcontract stream value Hvalue. unfold read_from, write_to.
  by apply Hcontract.
Qed.

Lemma primitive_codec_round_trip_witness :
  (read_from (H := bit_buffer_stream) Samples.bi24
     (@seek bit_buffer_stream 3
        (write_to (H := bit_buffer_stream) Samples.bi24 Samples.three_bits (-5)))).1
  = (-5)%Z.
Proof.
  destruct (primitive_codec_round_trip (H := bit_buffer_stream) Samples.bi24)
    as (_ & _ & Hround).
  apply (Hround bit_buffer_contract Samples.three_bits).
  unfold value_of, representable. simpl. lia.
Defined.

(** The sample: 24 bits written at bit 3 of the buffer, not at a byte
    boundary, and read back from there. *)
Example bi24_at_bit_3 :
  let written := write_to (H := bit_buffer_stream) Samples.bi24 Samples.three_bits (-5) in
  length (buffer written) = 27 /\ cursor written = 27 /\
  take 8 (buffer written) = [true; false; true; true; true; false; true; true].
Proof. repeat split. Qed.

End PrimitiveCodecFacts.

(** ** Type descriptors: the order of inheritance, and construction *)
Module TypeSystemOrder.
Import TypeSystem TypeSystemFacts.

Lemma on_base_chain_trans st a b c :
  on_base_chain st a b -> on_base_chain st b c -> on_base_chain st a c.
Proof.
  induction 1 as [| a t base b Ha _ IH]; [done |].
  intros Hbc. eapply chain_base; [done | by apply IH].
Qed.

(** What lies on the chain of a class descriptor is a class descriptor. *)
Lemma on_base_chain_class st candidate ancestor :
  well_founded_bases st -> is_class st candidate ->
  on_base_chain st candidate ancestor -> is_class st ancestor.
Proof.
  intros Hwf Hc. induction 1 as [| c t base a Hlook _ IH]; [done |].
  apply IH. destruct (Hwf _ _ _ Hlook) as [_ Hb]. by destruct (Hb base eq_refl).
Qed.

Lemma inherits_true_iff st candidate ancestor :
  well_founded_bases st -> is_class st candidate ->
  inherits st candidate ancestor = Some (Ret true)
  <-> on_base_chain st candidate ancestor.
Proof.
  intros Hwf Hc.
  destruct (inherits_decides st candidate ancestor Hwf Hc) as (b & -> & Hiff).
  rewrite <- Hiff. split; [by intros [= ->] | by intros ->].
Qed.

(** X1. On the class descriptors of a store the constructors built,
    [inherits] is a partial order: it is transitive, two descriptors that
    inherit from each other are the same descriptor, and it answers true
    only for an ancestor that is itself an [IClassType]. *)
Theorem inherits_partial_order (st : store) :
  constructed st ->
  (forall A B C, is_class st A ->
     inherits st A B = Some (Ret true) -> inherits st B C = Some (Ret true) ->
     inherits st A C = Some (Ret true)) /\
  (forall A B, is_class st A -> is_class st B ->
     inherits st A B = Some (Ret true) -> inherits st B A = Some (Ret true) ->
     A = B) /\
  (forall A B, is_class st A ->
     inherits st A B = Some (Ret true) -> is_class st B).
Proof.
  intros Hwf%constructed_well_founded. split; [| split].
  - intros A B C HA HAB HBC.
    apply (inherits_true_iff st A B Hwf HA) in HAB.
    pose proof (on_base_chain_class st A B Hwf HA HAB) as HB.
    apply (inherits_true_iff st B C Hwf HB) in HBC.
    apply (inherits_true_iff st A C Hwf HA). by eapply on_base_chain_trans.
  - intros A B HA HB HAB HBA.
    apply (inherits_true_iff st A B Hwf HA), on_base_chain_le in HAB; [| done].
    apply (inherits_true_iff st B A Hwf HB), on_base_chain_le in HBA; [| done].
    lia.
  - intros A B HA HAB.
    apply (inherits_true_iff st A B Hwf HA) in HAB.
    by eapply on_base_chain_class.
Qed.

Lemma inherits_partial_order_witness :
  inherits Samples.with_Y 2 2 = Some (Ret true) /\ is_class Samples.with_Y 1.
Proof.
  destruct (inherits_partial_order Samples.with_Y with_Y_constructed)
    as (Htrans & _ & Hclass).
  assert (HY : is_class Samples.with_Y 2) by (eexists _, _; reflexivity).
  split.
  - apply (Htrans 2 2 2 HY); reflexivity.
  - apply (Hclass 2 1 HY). reflexivity.
Defined.

(** A new descriptor at the end of the store leaves the chains of the
    class descriptors already there as they were. *)
Lemma on_base_chain_snoc st o candidate ancestor :
  well_founded_bases st -> is_class st candidate ->
  on_base_chain (st ++ [o]) candidate ancestor
  <-> on_base_chain st candidate ancestor.
Proof.
  intros Hwf Hc. split.
  - induction 1 as [| c t base a Hlook _ IH]; [constructor |].
    apply is_class_lt in Hc as Hlt. rewrite lookup_app_l in Hlook by done.
    eapply chain_base; [done |]. apply IH.
    destruct (Hwf _ _ _ Hlook) as [_ Hb]. by destruct (Hb base eq_refl).
  - induction 1 as [| c t base a Hlook _ IH]; [constructor |].
    eapply chain_base; [by apply lookup_app_l_Some |]. apply IH.
    destruct (Hwf _ _ _ Hlook) as [_ Hb]. by destruct (Hb base eq_refl).
Qed.

(** X2. A successful [IClassType] construction changes no descriptor
    already in the store and no answer of [inherits] between them; the new
    descriptor inherits from itself and from what its base inherits from,
    and from nothing else. *)
Theorem IClassType_ctor_extends_order (st : store) (name : string)
    (base_class : option addr) (type_system : TypeSystem) (p : addr) (st' : store) :
  constructed st ->
  IClassType_ctor name base_class type_system st = Ret (p, st') ->
  (forall q o, st !! q = Some o -> st' !! q = Some o) /\
  (forall candidate ancestor, is_class st candidate ->
     inherits st' candidate ancestor = inherits st candidate ancestor) /\
  (forall ancestor,
     inherits st' p ancestor = Some (Ret true)
     <-> ancestor = p \/
         exists b, base_class = Some b /\ inherits st b ancestor = Some (Ret true)).
Proof.
  intros Hcons Hctor.
  assert (Hcons' : constructed st') by by eapply constructed_class.
  apply constructed_well_founded in Hcons as Hwf.
  apply constructed_well_founded in Hcons' as Hwf'.
  apply IClassType_ctor_Ret in Hctor as (-> & -> & Hbase).
  set (this := ClassType (set_kind CLASS (Type_ctor name type_system)) base_class)
    in *.
  assert (Hnew : (st ++ [this]) !! length st = Some this)
    by by rewrite lookup_app_r, Nat.sub_diag.
  assert (Hp : is_class (st ++ [this]) (length st)) by by eexists _, _.
  split; [| split].
  - intros q o Hq. by apply lookup_app_l_Some.
  - intros c a Hc. pose proof (is_class_snoc st this c Hc) as Hc'.
    destruct (inherits_decides st c a Hwf Hc) as (b & -> & Hiff).
    destruct (inherits_decides (st ++ [this]) c a Hwf' Hc') as (b' & -> & Hiff').
    do 2 f_equal. rewrite (on_base_chain_snoc st this c a Hwf Hc) in Hiff'.
    destruct b, b'; try done.
    + assert (false = true) by by apply Hiff', Hiff. done.
    + assert (false = true) by by apply Hiff, Hiff'. done.
  - intros a. rewrite (inherits_true_iff _ _ _ Hwf' Hp). split.
    + inversion 1 as [| ? t base ? Hlook Hch]; subst; [by left | right].
      rewrite Hnew in Hlook. injection Hlook as <- ->.
      destruct (Hbase base eq_refl) as (tb & bb & Hb & _).
      assert (Hbc : is_class st base) by by eexists _, _.
      exists base. split; [done |].
      apply (inherits_true_iff st base a Hwf Hbc).
      by apply (on_base_chain_snoc st this base a Hwf Hbc).
    + intros [-> | (b & -> & Hb)]; [constructor |].
      destruct (Hbase b eq_refl) as (tb & bb & Hlook & _).
      assert (Hbc : is_class st b) by by eexists _, _.
      eapply chain_base; [exact Hnew |].
      apply (on_base_chain_snoc st this b a Hwf Hbc).
      by apply (inherits_true_iff st b a Hwf Hbc).
Qed.

Lemma with_X_constructed : constructed Samples.with_X.
Proof.
  apply (constructed_class Samples.with_int "X" None Samples.schema 1 _);
    [| reflexivity].
  apply (constructed_other [] "int" PRIMITIVE Samples.schema). constructor.
Qed.

Lemma IClassType_ctor_extends_order_witness :
  (forall candidate ancestor, is_class Samples.with_X candidate ->
     inherits Samples.with_Y candidate ancestor
     = inherits Samples.with_X candidate ancestor) /\
  (forall ancestor,
     inherits Samples.with_Y 2 ancestor = Some (Ret true)
     <-> ancestor = 2 \/
         exists b, Some 1 = Some b /\
           inherits Samples.with_X b ancestor = Some (Ret true)).
Proof.
  destruct (IClassType_ctor_extends_order Samples.with_X "Y" (Some 1)
              Samples.schema 2 Samples.with_Y with_X_constructed eq_refl)
    as (_ & Hsame & Hnew).
  split; [exact Hsame | exact Hnew].
Defined.

(** X3. On two live descriptors of a store the constructors built:
    without inheritance, [assert_type_match] returns exactly when the two
    are the same descriptor and throws the type mismatch error otherwise;
    with inheritance allowed and a class descriptor as the actual type, it
    returns exactly when the expected type is the actual type or one of its
    ancestors and throws the type mismatch error otherwise. In neither case
    does [std::bad_cast] escape. *)
Theorem assert_type_match_decides (st : store) (expected actual : addr)
    (e a : type_object) :
  constructed st -> st !! expected = Some e -> st !! actual = Some a ->
  (assert_type_match st expected actual false = Some (Ret tt)
   <-> expected = actual) /\
  (expected <> actual ->
   assert_type_match st expected actual false
   = Some (Throw (type_mismatch e a false))) /\
  (is_class st actual ->
   (assert_type_match st expected actual true = Some (Ret tt)
    <-> on_base_chain st actual expected) /\
   (~ on_base_chain st actual expected ->
    assert_type_match st expected actual true
    = Some (Throw (type_mismatch e a true)))).
Proof.
  intros Hcons He Ha. apply constructed_well_founded in Hcons as Hwf.
  pose proof (assert_type_match_outcomes st expected actual false e a Hcons He Ha)
    as [Hsame Hdiff].
  split; [| split; [done |]].
  - split; [| done]. intros Hret.
    destruct (decide (expected = actual)) as [| Hne]; [done |].
    rewrite (Hdiff Hne) in Hret. discriminate.
  - intros Hc.
    pose proof (assert_type_match_outcomes st expected actual true e a Hcons He Ha)
      as Hout.
    destruct Hc as (t & b & Hlook). rewrite Ha in Hlook. injection Hlook as ->.
    destruct (Hwf _ _ _ Ha) as [Hkind _].
    destruct (true && kind_eqb (get_kind e) CLASS) eqn:Hgate; simpl in Hout.
    + destruct Hout as [Hyes Hno]. split; [| done].
      split; [| done]. intros Hret.
      destruct (inherits_decides st actual expected Hwf ltac:(by eexists _, _))
        as ([] & _ & Hiff); [by apply Hiff |].
      assert (Hnot : ~ on_base_chain st actual expected)
        by (intros Hch; by apply Hiff in Hch).
      rewrite (Hno Hnot) in Hret. discriminate.
    + assert (Hnot : ~ on_base_chain st actual expected).
      { intros Hch.
        assert (Hac : is_class st actual) by by eexists _, _.
        destruct (on_base_chain_class st actual expected Hwf Hac Hch)
          as (te & be & Hlook).
        rewrite He in Hlook. injection Hlook as ->.
        destruct (Hwf _ _ _ He) as [Hk _].
        simpl in Hgate. unfold get_kind in Hgate. simpl in Hgate.
        by rewrite Hk in Hgate. }
      assert (Hne : expected <> actual) by (intros ->; apply Hnot; constructor).
      destruct Hout as [_ Hdiff']. rewrite (Hdiff' Hne).
      split; [| done]. split; [done | by intros Hch].
Qed.

Lemma assert_type_match_decides_witness :
  (assert_type_match Samples.with_Y 1 2 false = Some (Ret tt) <-> 1 = 2) /\
  (assert_type_match Samples.with_Y 1 2 true = Some (Ret tt)
   <-> on_base_chain Samples.with_Y 2 1).
Proof.
  destruct (assert_type_match_decides Samples.with_Y 1 2 _ _
              with_Y_constructed eq_refl eq_refl) as (Hexact & _ & Hinh).
  split; [exact Hexact |].
  apply Hinh. eexists _, _. reflexivity.
Defined.

End TypeSystemOrder.

(** ** Values and casters: steps of the registry *)
Module CastingSteps.
Import Casting CastingExt CastingFacts.

Section WithPlatform.
Context `{Platform}.

Lemma ValueCaster_get_heap T st : heap (ValueCaster_get T st).2 = heap st.
Proof.
  unfold ValueCaster_get.
  by destruct (default ∅ (s_caster_lookup st) !! hash_code T).
Qed.

Lemma sound_step_refl st : registry_ok st -> sound_step st st.
Proof. intros Hok. split; [done |]. split; [apply grows_refl | done]. Qed.

Lemma sound_step_trans st1 st2 st3 :
  sound_step st1 st2 -> sound_step st2 st3 -> sound_step st1 st3.
Proof.
  intros (_ & Hg1 & Hh1) (Hok & Hg2 & Hh2).
  split; [done |]. split; [by eapply grows_trans | eauto].
Qed.

Lemma declare_sound_step SrcT DestT st :
  registry_ok st -> sound_step st (declare SrcT DestT st).2.
Proof.
  intros Hok.
  destruct (declare_spec st SrcT DestT Hok)
    as (st' & c & -> & Hok' & Hgrow & Hheap & _).
  simpl. split; [done |]. split; [done |]. by rewrite Hheap.
Qed.

Lemma make_value_sound_step T value st :
  registry_ok st -> sound_step st (make_value T value st).2.
Proof.
  intros Hok.
  destruct (make_value_spec st T value Hok)
    as (v & st' & -> & Hok' & Hgrow & _ & _ & _ & Hfree & Hheap & _).
  simpl. split; [done |]. split; [done |].
  intros p x Hp. rewrite Hheap, lookup_insert_ne; [done | congruence].
Qed.

Lemma make_reference_sound_step T ptr st :
  registry_ok st -> sound_step st (make_reference T ptr st).2.
Proof.
  intros Hok.
  destruct (make_reference_spec st T ptr Hok)
    as (v & st' & -> & Hok' & Hgrow & _ & _ & _ & _ & Hheap).
  simpl. split; [done |]. split; [done |]. by rewrite Hheap.
Qed.

Lemma value_caster_cast_sound_step c v st :
  registry_ok st -> sound_step st (value_caster_cast c v st).2.
Proof.
  intros Hok. pose proof (value_caster_cast_outcomes c v st) as Hout.
  destruct (is_ (vc_SrcT c) v); [| rewrite Hout; by apply sound_step_refl].
  destruct (heap st !! m_value_ptr v) as [x |];
    rewrite Hout; [by apply make_value_sound_step | by apply sound_step_refl].
Qed.

Lemma cast_value_sound_step p T v st :
  registry_ok st -> sound_step st (cast_value p T v st).2.
Proof.
  intros Hok. unfold cast_value.
  destruct (casters st !! p) as [vc |]; [| by apply sound_step_refl].
  destruct (m_casts vc !! hash_code T) as [c |]; [| by apply sound_step_refl].
  by apply value_caster_cast_sound_step.
Qed.

Lemma load_then_make_value_sound_step T ptr st :
  registry_ok st ->
  sound_step st ((load ptr ≫= make_value T) st).2.
Proof.
  intros Hok. unfold mbind, M_bind, load.
  destruct (heap st !! ptr) as [x |]; [| by apply sound_step_refl].
  by apply make_value_sound_step.
Qed.

(** X5. From a sound registry, every operation on values and casters --
    [declare], [make_value], [make_reference], [dereference], [as], the two
    [cast]s and [cast_value] -- ends, however it ends, in a sound registry
    in which every entry of [s_caster_lookup] and all storage in use are as
    they were: no [ValueCaster] is removed or moved, so the [m_caster] of a
    [Value] made earlier stays valid, and no held value is overwritten. *)
Theorem operations_keep_registry_sound (st : State) :
  registry_ok st ->
  (forall SrcT DestT, sound_step st (declare SrcT DestT st).2) /\
  (forall T value, sound_step st (make_value T value st).2) /\
  (forall T ptr, sound_step st (make_reference T ptr st).2) /\
  (forall T v, sound_step st (dereference T v st).2) /\
  (forall T v, sound_step st (as_ T v st).2) /\
  (forall p T v, sound_step st (cast_value p T v st).2) /\
  (forall DestT src_type v, sound_step st (cast_from DestT src_type v st).2) /\
  (forall SrcT DestT v, sound_step st (cast SrcT DestT v st).2) /\
  (forall st' v, sound_step st st' -> value_ok st v -> value_ok st' v).
Proof.
  intros Hok. repeat split_and.
  - intros. by apply declare_sound_step.
  - intros. by apply make_value_sound_step.
  - intros. by apply make_reference_sound_step.
  - intros T v. unfold dereference.
    destruct (is_ T v); simpl; [| by apply sound_step_refl].
    by apply load_then_make_value_sound_step.
  - intros T v. unfold as_.
    destruct (is_ T v); simpl; [| by apply cast_value_sound_step].
    by apply load_then_make_value_sound_step.
  - intros. by apply cast_value_sound_step.
  - intros DestT src_type v. unfold cast_from.
    destruct (s_caster_lookup st) as [lookup |]; [| by apply sound_step_refl].
    destruct (lookup !! hash_code src_type);
      [by apply cast_value_sound_step | by apply sound_step_refl].
  - intros SrcT DestT v. unfold cast.
    pose proof (declare_sound_step SrcT DestT st Hok) as Hstep1.
    destruct (declare_spec st SrcT DestT Hok) as (st1 & c & Hdecl & Hok1 & _).
    rewrite Hdecl in Hstep1. rewrite (bind_Ret _ _ _ _ _ Hdecl).
    destruct (ValueCaster_get_spec SrcT st1 Hok1)
      as (p & st2 & lookup2 & Hget & Hok2 & Hgrow2 & Hheap2 & _).
    rewrite (bind_Ret _ _ _ _ _ Hget).
    eapply sound_step_trans; [exact Hstep1 |].
    eapply sound_step_trans; [| by apply cast_value_sound_step].
    split; [done |]. split; [done |]. by rewrite Hheap2.
  - intros st' v (_ & Hgrow & _). by apply value_ok_grows.
Qed.

End WithPlatform.

Lemma operations_keep_registry_sound_witness :
  sound_step Samples.with_300
    (as_ Samples.uint8_t Samples.held_300 Samples.with_300).2 /\
  sound_step Samples.with_300
    (cast Samples.int32_t Samples.int64_t Samples.held_300 Samples.with_300).2.
Proof.
  destruct with_300_ok as (Hok & _).
  destruct (operations_keep_registry_sound Samples.with_300 Hok)
    as (_ & _ & _ & _ & Has & _ & _ & Hcast & _).
  split; [apply Has | apply Hcast].
Defined.

End CastingSteps.

(** ** Values and casters: how the operations compose *)
Module CastingCompose.
Import Casting CastingExt CastingFacts CastingSteps.

Section WithPlatform.
Context `{Platform}.

(** X4. A second [ValueCaster::get<T>()] returns the table the first one
    returned and changes nothing; neither touches held values. In a sound
    registry two types share their table exactly when their hashes are
    equal. *)
Theorem ValueCaster_get_stable (T : type_info) (st : State) :
  (exists p st',
     ValueCaster_get T st = (Ret p, st') /\
     ValueCaster_get T st' = (Ret p, st') /\
     heap st' = heap st) /\
  (registry_ok st ->
   forall U p q st1 st2,
     ValueCaster_get T st = (Ret p, st1) ->
     ValueCaster_get U st1 = (Ret q, st2) ->
     (p = q <-> hash_code T = hash_code U)).
Proof.
  split.
  - destruct (ValueCaster_get_total T st) as (p & st' & lookup' & Hget & Hl & Hp).
    exists p, st'. split; [done |].
    split; [by eapply ValueCaster_get_found |].
    pose proof (ValueCaster_get_heap T st) as Hheap. by rewrite Hget in Hheap.
  - intros Hok U p q st1 st2 HT HU.
    destruct (ValueCaster_get_spec T st Hok)
      as (p' & st1' & lookup1 & Hget & Hok1 & _ & _ & Hl1 & Hp & _).
    rewrite HT in Hget. injection Hget as <- <-.
    destruct (ValueCaster_get_spec U st1 Hok1)
      as (q' & st2' & lookup2 & Hget & Hok2 & [_ Hkeep] & _ & Hl2 & Hq & _).
    rewrite HU in Hget. injection Hget as <- <-.
    destruct (Hkeep _ _ _ Hl1 Hp) as (lookup2' & Hl2' & Hp2).
    rewrite Hl2 in Hl2'. injection Hl2' as <-.
    split.
    + intros <-. by eapply lookup_injective.
    + intros Heq. rewrite Heq in Hp2. congruence.
Qed.

Lemma ValueCaster_get_unchanged T st :
  exists p st',
    ValueCaster_get T st = (Ret p, st') /\
    heap st' = heap st /\ next_addr st <= next_addr st'.
Proof.
  unfold ValueCaster_get.
  destruct (default ∅ (s_caster_lookup st) !! hash_code T);
    eexists _, _; (split; [done |]); simpl; split; [done | lia | done | lia].
Qed.

(** What [make_value] returns, in any state. *)
Lemma make_value_shape T value st :
  exists caster st',
    make_value T value st
    = (Ret {| m_value_ptr := next_addr st; m_ptr_is_owned := true;
              m_type_hash := hash_code T; m_caster := caster;
              m_deallocator := T |}, st') /\
    heap st' = <[next_addr st := value]> (heap st).
Proof.
  unfold make_value, set_type, new_copy, mbind, M_bind.
  match goal with
  | |- context [ValueCaster_get T ?s] =>
      destruct (ValueCaster_get_unchanged T s) as (p & st' & -> & Hheap & _)
  end.
  by eexists _, _.
Qed.

(** X6. [get<T>()] on what [make_value<T>(value)] returned gives the
    storage that holds [value], and [get<U>()] for a type of another hash
    throws the [runtime_error]; the [Value] owns its storage. This holds
    in every state. *)
Theorem make_value_then_get (T : type_info) (value : payload) (st : State) :
  exists v st',
    make_value T value st = (Ret v, st') /\
    is_reference v = false /\
    (get T v).1 = Ret (m_value_ptr v) /\
    heap st' !! m_value_ptr v = Some value /\
    forall U, hash_code U <> hash_code T ->
      get U v = (Throw (runtime_error "Invalid call to Value::get<T>."), v).
Proof.
  destruct (make_value_shape T value st) as (caster & st' & Hmk & Hheap).
  eexists _, st'. split; [exact Hmk |]. split; [done |].
  unfold get, is_. simpl. rewrite N.eqb_refl. simpl. split; [done |].
  split; [rewrite Hheap; apply lookup_insert_eq |].
  intros U HU. by destruct (N.eqb_spec (hash_code T) (hash_code U)); [congruence |].
Qed.

(** X7. [dereference<T>()] on a [Value] holding [T], owning or a
    reference, returns a new owning [Value] whose storage is a copy at
    another address, leaving the storage referred to as it was; on a
    [Value] of another type it throws the [runtime_error] and changes
    nothing. *)
Theorem dereference_detaches (st : State) (v : Value) (T : type_info)
    (x : payload) :
  registry_ok st -> heap st !! m_value_ptr v = Some x ->
  if is_ T v then
    exists v' st',
      dereference T v st = (Ret v', st') /\
      new_owning st st' v' T x /\
      m_value_ptr v' <> m_value_ptr v /\
      heap st' !! m_value_ptr v = Some x
  else
    dereference T v st
    = (Throw (runtime_error "Invalid call to Value::dereference<T>."), st).
Proof.
  intros Hok Hx. unfold dereference. destruct (is_ T v); simpl; [| done].
  assert (Hload : load (m_value_ptr v) st = (Ret x, st))
    by (unfold load; by rewrite Hx).
  rewrite (bind_Ret _ _ _ _ _ Hload).
  destruct (make_value_spec st T x Hok)
    as (v' & st' & Hmk & Hok' & _ & Hv' & Hown & Hty & Hfree & Hheap & _).
  exists v', st'. split; [done |].
  assert (Hne : m_value_ptr v' <> m_value_ptr v) by congruence.
  split; [| split; [done |]].
  - unfold new_owning. repeat (split; [done |]). done.
  - by rewrite Hheap, lookup_insert_ne.
Qed.

(** The table a sound registry has for a hash decides [cast_value]. *)
Lemma cast_value_registered st lookup s p T v :
  registry_ok st -> s_caster_lookup st = Some lookup -> lookup !! s = Some p ->
  match registered st s (hash_code T) with
  | Some c => cast_value p T v st = value_caster_cast c v st
  | None =>
      exists src, hash_code src = s /\
        cast_value p T v st = (Throw (cast_error src T), st)
  end.
Proof.
  intros [_ Hreg] Hl Hp.
  destruct (Hreg _ _ _ Hl Hp) as (vc & Hvc & Hsrc & _).
  unfold registered, cast_value. rewrite Hl. simpl. rewrite Hp. simpl.
  rewrite Hvc. simpl.
  destruct (m_casts vc !! hash_code T); [done | by exists (m_src_type vc)].
Qed.

(** X8. On a [Value] of a sound registry, [cast<DestT>(src_type, value)]
    with the [typeid] of the held type does what [value.as<DestT>()] does
    when the held type is not [DestT]. When the held type is [DestT] they
    part: [as] copies, while the cast by type looks for a caster from
    [DestT] to itself and throws a [cast_error] when there is none. *)
Theorem cast_from_agrees_with_as (st : State) (v : Value)
    (DestT src_type : type_info) :
  registry_ok st -> value_ok st v -> hash_code src_type = m_type_hash v ->
  (is_ DestT v = false ->
   cast_from DestT src_type v st = as_ DestT v st) /\
  (is_ DestT v = true ->
   registered st (hash_code DestT) (hash_code DestT) = None ->
   (exists src, cast_from DestT src_type v st = (Throw (cast_error src DestT), st)) /\
   forall x, heap st !! m_value_ptr v = Some x ->
     exists v' st', as_ DestT v st = (Ret v', st')).
Proof.
  intros Hok (lookup & Hl & Hv) Hsrc. split.
  - intros HT. unfold cast_from, as_. rewrite Hl, Hsrc, Hv, HT. done.
  - intros HT Hnone. split.
    + unfold cast_from. rewrite Hl, Hsrc, Hv.
      pose proof (cast_value_registered st lookup _ _ DestT v Hok Hl Hv) as Hcv.
      apply N.eqb_eq in HT. rewrite HT, Hnone in Hcv.
      destruct Hcv as (src & _ & ->). by exists src.
    + intros x Hx. unfold as_. rewrite HT. simpl.
      assert (Hload : load (m_value_ptr v) st = (Ret x, st))
        by (unfold load; by rewrite Hx).
      rewrite (bind_Ret _ _ _ _ _ Hload).
      destruct (make_value_total DestT x st) as (v' & st' & ->). by exists v', st'.
Qed.

(** X9. [cast<SrcT, DestT>(value)] leaves its declaration behind: on a
    [Value] holding [SrcT], after the call [value.as<DestT>()] returns a
    new owning [Value] with the converted value, whatever was registered
    for the pair before. *)
Theorem cast_leaves_caster_declared (st : State) (v : Value)
    (SrcT DestT : type_info) (x : payload) :
  registry_ok st -> value_ok st v -> heap st !! m_value_ptr v = Some x ->
  is_ SrcT v = true -> is_ DestT v = false ->
  exists v1 st1 v2 st2,
    cast SrcT DestT v st = (Ret v1, st1) /\
    as_ DestT v st1 = (Ret v2, st2) /\
    new_owning st1 st2 v2 DestT (static_cast SrcT DestT x).
Proof.
  intros Hok Hv Hx HS HD.
  destruct (declare_spec st SrcT DestT Hok)
    as (sa & c & Hdecl & Hoka & Hga & Hha & Hc & HcS & HcD & _).
  destruct (ValueCaster_get_spec SrcT sa Hoka)
    as (p & sb & lookupb & Hget & Hokb & Hgb & Hhb & Hlb & Hpb & Hsameb).
  pose proof (cast_value_registered sb lookupb _ p DestT v Hokb Hlb Hpb) as Hcv.
  rewrite Hsameb, Hc in Hcv.
  pose proof (value_caster_cast_outcomes c v sb) as Hout.
  rewrite HcS, HcD, HS, Hhb, Hha, Hx in Hout.
  destruct (make_value_spec sb DestT (static_cast SrcT DestT x) Hokb)
    as (v1 & st1 & Hmk & Hok1 & Hg1 & _ & _ & _ & Hfree1 & Hheap1 & Hsame1).
  assert (Hcast : cast SrcT DestT v st = (Ret v1, st1)).
  { unfold cast. rewrite (bind_Ret _ _ _ _ _ Hdecl), (bind_Ret _ _ _ _ _ Hget).
    congruence. }
  assert (Hv1 : value_ok st1 v).
  { eapply value_ok_grows; [| exact Hv].
    eapply grows_trans; [exact Hga |]. by eapply grows_trans. }
  assert (Hx1 : heap st1 !! m_value_ptr v = Some x).
  { rewrite Hheap1, lookup_insert_ne; [congruence |].
    rewrite Hhb, Hha in Hfree1. congruence. }
  destruct Hv1 as (lookup1 & Hl1 & Hp1).
  apply N.eqb_eq in HS.
  pose proof (cast_value_registered st1 lookup1 _ _ DestT v Hok1 Hl1 Hp1) as Hcv1.
  rewrite HS, Hsame1, Hsameb, Hc in Hcv1.
  pose proof (value_caster_cast_outcomes c v st1) as Hout1.
  rewrite HcS, HcD in Hout1. unfold is_ in Hout1 at 1.
  rewrite HS, N.eqb_refl, Hx1 in Hout1.
  destruct (make_value_spec st1 DestT (static_cast SrcT DestT x) Hok1)
    as (v2 & st2 & Hmk2 & Hok2 & _ & Hv2 & Hown2 & Hty2 & Hfree2 & Hheap2 & _).
  exists v1, st1, v2, st2. split; [done |]. split.
  { unfold as_. rewrite HD. simpl. congruence. }
  unfold new_owning. repeat (split; [done |]). done.
Qed.

End WithPlatform.

Lemma ValueCaster_get_stable_witness :
  exists p st',
    ValueCaster_get Samples.int32_t Samples.with_300 = (Ret p, st') /\
    ValueCaster_get Samples.int32_t st' = (Ret p, st') /\
    heap st' = heap Samples.with_300.
Proof.
  exact (proj1 (ValueCaster_get_stable Samples.int32_t Samples.with_300)).
Defined.

Lemma dereference_detaches_witness :
  exists v' st',
    dereference Samples.int32_t Samples.held_300 Samples.with_300 = (Ret v', st') /\
    new_owning Samples.with_300 st' v' Samples.int32_t 300%Z /\
    m_value_ptr v' <> m_value_ptr Samples.held_300 /\
    heap st' !! m_value_ptr Samples.held_300 = Some 300%Z.
Proof.
  destruct with_300_ok as (Hok & _ & Hx).
  exact (dereference_detaches Samples.with_300 Samples.held_300
           Samples.int32_t 300%Z Hok Hx).
Defined.

Lemma cast_from_agrees_with_as_witness :
  cast_from Samples.uint8_t Samples.int32_t Samples.held_300 Samples.with_300
  = as_ Samples.uint8_t Samples.held_300 Samples.with_300 /\
  exists src,
    cast_from Samples.int32_t Samples.int32_t Samples.held_300 Samples.with_300
    = (Throw (cast_error src Samples.int32_t), Samples.with_300).
Proof.
  destruct with_300_ok as (Hok & Hv & _).
  split.
  - destruct (cast_from_agrees_with_as Samples.with_300 Samples.held_300
                Samples.uint8_t Samples.int32_t Hok Hv eq_refl) as [Hsame _].
    exact (Hsame eq_refl).
  - destruct (cast_from_agrees_with_as Samples.with_300 Samples.held_300
                Samples.int32_t Samples.int32_t Hok Hv eq_refl) as [_ Hpart].
    exact (proj1 (Hpart eq_refl eq_refl)).
Defined.

Lemma cast_leaves_caster_declared_witness :
  exists v1 st1 v2 st2,
    cast Samples.int32_t Samples.int64_t Samples.held_300 Samples.with_300
    = (Ret v1, st1) /\
    as_ Samples.int64_t Samples.held_300 st1 = (Ret v2, st2) /\
    new_owning st1 st2 v2 Samples.int64_t 300%Z.
Proof.
  destruct with_300_ok as (Hok & Hv & Hx).
  exact (cast_leaves_caster_declared Samples.with_300 Samples.held_300
           Samples.int32_t Samples.int64_t 300%Z Hok Hv Hx eq_refl eq_refl).
Defined.

End CastingCompose.

(** ** The caster declarations of the primitive types *)
Module CasterDeclarerFacts.
Import Casting CastingExt CastingFacts.

Section WithPlatform.
Context `{Platform} `{TypeIds}.

Lemma bind_assoc {A B C} (m : M A) (f : A -> M B) (g : B -> M C) st :
  ((m ≫= f) ≫= g) st = (m ≫= fun a => f a ≫= g) st.
Proof. unfold mbind, M_bind. by destruct (m st) as [[a | e |] st']. Qed.

Lemma bind_ext {A B} (m : M A) (f g : A -> M B) st :
  (forall a st', f a st' = g a st') -> (m ≫= f) st = (m ≫= g) st.
Proof. intros Hfg. unfold mbind, M_bind. by destruct (m st) as [[a | e |] st']. Qed.

Lemma bind_ret_tt (m : M unit) st : (m ≫= fun _ => mret tt) st = m st.
Proof. unfold mbind, M_bind, mret, M_ret. by destruct (m st) as [[[] | e |] st']. Qed.

Lemma declare_each_append ds1 ds2 : forall st,
  declare_each (ds1 ++ ds2) st
  = (declare_each ds1 ≫= fun _ => declare_each ds2) st.
Proof.
  induction ds1 as [| [SrcT DestT] ds1 IH]; intros st; [done |].
  simpl. rewrite bind_assoc. apply bind_ext. intros _ st'. apply IH.
Qed.

Lemma bit_integers_S N :
  bit_integers (S N) = bit_integers N ++ [bi (S N); bui (S N)].
Proof.
  unfold bit_integers. by rewrite seq_S, flat_map_app.
Qed.

Lemma declarations_app T ds1 ds2 :
  declarations T (ds1 ++ ds2) = declarations T ds1 ++ declarations T ds2.
Proof. apply map_app. Qed.

Lemma bind_cong {A B} (m m' : M A) (f g : A -> M B) st :
  m st = m' st -> (forall a st', f a st' = g a st') ->
  (m ≫= f) st = (m' ≫= g) st.
Proof.
  intros Hm Hfg. unfold mbind, M_bind. rewrite Hm.
  by destruct (m' st) as [[a | e |] st'].
Qed.

Lemma bit_integer_declarer_runs T N : forall st,
  bit_integer_declarer T N st
  = declare_each (declarations T (bit_integers N)) st.
Proof.
  induction N as [| N IH]; intros st; [done |].
  rewrite bit_integers_S, declarations_app, declare_each_append.
  cbn [bit_integer_declarer]. apply bind_cong; [apply IH |].
  intros _ st'. simpl. apply bind_ext. intros _ st''.
  symmetry. apply bind_ret_tt.
Qed.

Lemma declare_each_numeric T st :
  declare_each (declarations T numeric_destinations) st
  = caster_declarer_integral T st.
Proof.
  unfold numeric_destinations, caster_declarer_integral.
  change (bool_t :: ?l) with ([bool_t] ++ l).
  rewrite !declarations_app, !declare_each_append.
  simpl (declare_each (declarations T [bool_t])).
  rewrite bind_assoc. apply bind_ext. intros _ st1.
  unfold mret at 1, M_ret at 1. unfold mbind at 1, M_bind at 1.
  rewrite declare_each_append.
  apply bind_cong; [symmetry; apply bit_integer_declarer_runs |].
  intros _ st2. simpl.
  repeat (apply bind_ext; intros _ ?). apply bind_ret_tt.
Qed.

Lemma declare_each_enum T st :
  declare_each (declarations T enum_destinations) st
  = caster_declarer_enum T st.
Proof.
  unfold enum_destinations, caster_declarer_enum.
  change (bool_t :: ?l) with ([bool_t] ++ l).
  rewrite !declarations_app, !declare_each_append.
  simpl (declare_each (declarations T [bool_t])).
  rewrite bind_assoc. apply bind_ext. intros _ st1.
  unfold mret at 1, M_ret at 1. unfold mbind at 1, M_bind at 1.
  rewrite declare_each_append.
  apply bind_cong; [symmetry; apply bit_integer_declarer_runs |].
  intros _ st2. simpl.
  repeat (apply bind_ext; intros _ ?). apply bind_ret_tt.
Qed.

Lemma last_declared_Some ds s d SrcT DestT :
  last_declared ds s d = Some (SrcT, DestT) ->
  (SrcT, DestT) ∈ ds /\ hash_code SrcT = s /\ hash_code DestT = d.
Proof.
  induction ds as [| [S' D'] ds IH]; [done |]. simpl.
  destruct (last_declared ds s d) as [r |].
  - intros [= ->]. destruct (IH eq_refl) as (? & ? & ?).
    split; [by right | done].
  - destruct (N.eqb_spec (hash_code S') s) as [<- |]; [| done].
    destruct (N.eqb_spec (hash_code D') d) as [<- |]; [| done].
    intros [= <- <-]. split; [by left | done].
Qed.

Lemma last_declared_None ds s d SrcT DestT :
  last_declared ds s d = None -> (SrcT, DestT) ∈ ds ->
  hash_code SrcT <> s \/ hash_code DestT <> d.
Proof.
  induction ds as [| [S' D'] ds IH]; [by intros _ ?%elem_of_nil |]. simpl.
  destruct (last_declared ds s d) as [r |]; [done |].
  intros Hhead [[= -> ->] | Hin]%elem_of_cons; [| by apply IH].
  destruct (N.eqb_spec (hash_code S') s); [| by left].
  destruct (N.eqb_spec (hash_code D') d); [done | by right].
Qed.

(** A run of declarations from [T] registers a caster from [T] for each
    destination, and leaves every other pair as it was. *)
Lemma declarations_register T dests st :
  registry_ok st ->
  exists st',
    declare_each (declarations T dests) st = (Ret tt, st') /\
    registry_ok st' /\
    (forall D, D ∈ dests ->
       exists c D', registered st' (hash_code T) (hash_code (typeid D)) = Some c /\
         vc_SrcT c = T /\ vc_DestT c = typeid D' /\ D' ∈ dests /\
         hash_code (typeid D') = hash_code (typeid D)) /\
    (forall s d,
       s <> hash_code T \/ (forall D, D ∈ dests -> d <> hash_code (typeid D)) ->
       registered st' s d = registered st s d).
Proof.
  intros Hok.
  destruct (declare_each_spec (declarations T dests) st Hok)
    as (st' & Hrun & Hok' & _ & _ & Hlast).
  exists st'. split; [done |]. split; [done |]. split.
  - intros D HD. specialize (Hlast (hash_code T) (hash_code (typeid D))).
    destruct (last_declared (declarations T dests) (hash_code T)
                (hash_code (typeid D))) as [[S' D1] |] eqn:Hl.
    + destruct Hlast as (c & Hc & HS & HD1 & _).
      apply last_declared_Some in Hl as (Hin & _ & Hhash).
      apply list_elem_of_fmap in Hin as (D' & [= -> ->] & HD').
      by exists c, D'.
    + exfalso.
      assert (Hin : (T, typeid D) ∈ declarations T dests)
        by (apply list_elem_of_fmap; by exists D).
      by destruct (last_declared_None _ _ _ _ _ Hl Hin).
  - intros s d Hout. specialize (Hlast s d).
    destruct (last_declared (declarations T dests) s d) as [[S' D1] |] eqn:Hl;
      [| done].
    exfalso. apply last_declared_Some in Hl as (Hin & HS & HD1).
    apply list_elem_of_fmap in Hin as (D' & [= -> ->] & HD').
    destruct Hout as [Hs | Hd]; [done |]. by apply (Hd D').
Qed.

Lemma elem_of_bit_integers D N :
  D ∈ bit_integers N <-> exists k, 1 <= k <= N /\ (D = bi k \/ D = bui k).
Proof.
  unfold bit_integers. rewrite list_elem_of_In, in_flat_map. split.
  - intros (k & Hk%in_seq & HD). exists k. split; [lia |].
    simpl in HD. destruct HD as [<- | [<- | []]]; [by left | by right].
  - intros (k & Hk & HD). exists k. split; [apply in_seq; lia |].
    simpl. destruct HD as [-> | ->]; [by left | right; by left].
Qed.

(** X10. From a sound registry, [bit_integer_declarer<T, N>::declare()]
    succeeds and leaves a caster from [T] registered for [bi<k>] and for
    [bui<k>], for every [k] from 1 to [N], and no other pair changed; with
    [N] = 0 it registers nothing. *)
Theorem bit_integer_declarer_registers (T : type_info) (N : nat) (st : State) :
  registry_ok st ->
  exists st',
    bit_integer_declarer T N st = (Ret tt, st') /\
    registry_ok st' /\
    (forall k D, 1 <= k <= N -> D = bi k \/ D = bui k ->
       exists c, registered st' (hash_code T) (hash_code (typeid D)) = Some c /\
         vc_SrcT c = T /\ hash_code (vc_DestT c) = hash_code (typeid D)) /\
    (forall s d,
       s <> hash_code T \/
       (forall k, 1 <= k <= N ->
          d <> hash_code (typeid (bi k)) /\ d <> hash_code (typeid (bui k))) ->
       registered st' s d = registered st s d).
Proof.
  intros Hok.
  destruct (declarations_register T (bit_integers N) st Hok)
    as (st' & Hrun & Hok' & Hin & Hout).
  exists st'. split; [by rewrite bit_integer_declarer_runs |]. split; [done |].
  split.
  - intros k D Hk HD.
    destruct (Hin D) as (c & D' & Hc & HS & HD' & _ & Hhash).
    { apply elem_of_bit_integers. by exists k. }
    exists c. by rewrite HD'.
  - intros s d [Hs | Hd]; apply Hout; [by left | right].
    intros D (k & Hk & [-> | ->])%elem_of_bit_integers; by apply (Hd k).
Qed.


(** X11. The declarations of an integral type and those of a floating
    point type are the same run. From a sound registry the run succeeds and
    leaves a caster from [T] registered for [bool], every bit integer up to
    7 bits, the 8 to 64 bit integers, [float], [double], [std::string] and
    the json type; no other pair changes. *)
Theorem numeric_caster_declarers_register (T : type_info) (st : State) :
  registry_ok st ->
  caster_declarer_floating_point T st = caster_declarer_integral T st /\
  exists st',
    caster_declarer_integral T st = (Ret tt, st') /\
    registry_ok st' /\
    (forall D, D ∈ numeric_destinations ->
       exists c, registered st' (hash_code T) (hash_code (typeid D)) = Some c /\
         vc_SrcT c = T /\ hash_code (vc_DestT c) = hash_code (typeid D)) /\
    (forall s d,
       s <> hash_code T \/
       (forall D, D ∈ numeric_destinations -> d <> hash_code (typeid D)) ->
       registered st' s d = registered st s d).
Proof.
  intros Hok. split; [done |].
  destruct (declarations_register T numeric_destinations st Hok)
    as (st' & Hrun & Hok' & Hin & Hout).
  exists st'. split; [by rewrite <- declare_each_numeric |]. split; [done |].
  split; [| done].
  intros D HD. destruct (Hin D HD) as (c & D' & Hc & HS & HD' & _ & Hhash).
  exists c. by rewrite HD'.
Qed.

(** X12. Where distinct types have distinct hashes, the declarations of an
    enum type register a caster to [bool], the integers, [std::string] and
    the json type, and leave the pairs to [float] and to [double] as they
    were: an enum [Value] for which no caster to [float] was registered
    before still throws a [cast_error] on [as<float>()]. *)
Theorem enum_caster_declarer_skips_floats (T : type_info) (st : State) :
  (forall a b, hash_code (typeid a) = hash_code (typeid b) -> a = b) ->
  registry_ok st ->
  exists st',
    caster_declarer_enum T st = (Ret tt, st') /\
    registry_ok st' /\
    (forall D, D ∈ enum_destinations ->
       exists c, registered st' (hash_code T) (hash_code (typeid D)) = Some c /\
         vc_SrcT c = T /\ vc_DestT c = typeid D) /\
    registered st' (hash_code T) (hash_code (typeid float_t))
    = registered st (hash_code T) (hash_code (typeid float_t)) /\
    registered st' (hash_code T) (hash_code (typeid double_t))
    = registered st (hash_code T) (hash_code (typeid double_t)) /\
    forall v,
      value_ok st' v -> m_type_hash v = hash_code T ->
      hash_code T <> hash_code (typeid float_t) ->
      registered st (hash_code T) (hash_code (typeid float_t)) = None ->
      exists src,
        as_ (typeid float_t) v st' = (Throw (cast_error src (typeid float_t)), st').
Proof.
  intros Hinj Hok.
  destruct (declarations_register T enum_destinations st Hok)
    as (st' & Hrun & Hok' & Hin & Hout).
  exists st'. split; [by rewrite <- declare_each_enum |]. split; [done |].
  assert (Hnot : forall F, F = float_t \/ F = double_t ->
            forall D, D ∈ enum_destinations ->
              hash_code (typeid F) <> hash_code (typeid D)).
  { intros F HF D HD Heq. apply Hinj in Heq. subst D.
    unfold enum_destinations in HD.
    apply elem_of_cons in HD as [HD | HD]; [by destruct HF; subst |].
    apply elem_of_app in HD as [HD | HD].
    - apply elem_of_bit_integers in HD as (k & _ & [-> | ->]);
        by destruct HF.
    - repeat (apply elem_of_cons in HD as [HD | HD];
                [by destruct HF; subst |]).
      by apply elem_of_nil in HD. }
  assert (Hfloat : registered st' (hash_code T) (hash_code (typeid float_t))
                   = registered st (hash_code T) (hash_code (typeid float_t))).
  { apply Hout. right. intros D HD. apply Hnot; [by left | done]. }
  split; [| split; [done |]; split].
  - intros D HD. destruct (Hin D HD) as (c & D' & Hc & HS & HD' & _ & Hhash).
    exists c. apply Hinj in Hhash. by subst D'.
  - apply Hout. right. intros D HD. apply Hnot; [by right | done].
  - intros v (lookup & Hl & Hv) Hty Hne Hnone.
    pose proof (CastingCompose.cast_value_registered st' lookup _ _
                  (typeid float_t) v Hok' Hl Hv) as Hcv.
    rewrite Hty, Hfloat, Hnone in Hcv. destruct Hcv as (src & _ & Hcv).
    exists src. unfold as_, is_.
    destruct (N.eqb_spec (m_type_hash v) (hash_code (typeid float_t)));
      [congruence | done].
Qed.

End WithPlatform.

Lemma type_code_injective a b :
  MoreSamples.type_code a = MoreSamples.type_code b -> a = b.
Proof.
  destruct a, b; simpl; intros Heq; try lia; f_equal; lia.
Qed.

Lemma numbered_injective a b :
  hash_code (typeid a) = hash_code (typeid b) -> a = b.
Proof. apply type_code_injective. Qed.

Lemma bit_integer_declarer_registers_witness :
  exists st',
    bit_integer_declarer MoreSamples.Color 7 initial = (Ret tt, st') /\
    registry_ok st' /\
    (forall k D, 1 <= k <= 7 -> D = bi k \/ D = bui k ->
       exists c,
         registered st' (hash_code MoreSamples.Color) (hash_code (typeid D))
         = Some c /\
         vc_SrcT c = MoreSamples.Color /\
         hash_code (vc_DestT c) = hash_code (typeid D)) /\
    (forall s d,
       s <> hash_code MoreSamples.Color \/
       (forall k, 1 <= k <= 7 ->
          d <> hash_code (typeid (bi k)) /\ d <> hash_code (typeid (bui k))) ->
       registered st' s d = registered initial s d).
Proof.
  exact (bit_integer_declarer_registers MoreSamples.Color 7 initial
           registry_ok_initial).
Defined.

Lemma numeric_caster_declarers_register_witness :
  exists st' c,
    caster_declarer_integral Samples.int32_t initial = (Ret tt, st') /\
    registered st' (hash_code Samples.int32_t) (hash_code (typeid (bui 24)))
    = Some c /\
    vc_SrcT c = Samples.int32_t.
Proof.
  destruct (numeric_caster_declarers_register Samples.int32_t initial
              registry_ok_initial) as (_ & st' & Hrun & _ & Hin & _).
  destruct (Hin (bui 24)) as (c & Hc & HS & _).
  { unfold numeric_destinations. apply list_elem_of_further, elem_of_app.
    right. do 7 apply list_elem_of_further. apply list_elem_of_here. }
  exists st', c. split; [exact Hrun |]. split; [exact Hc | exact HS].
Defined.

Lemma enum_caster_declarer_skips_floats_witness :
  exists st',
    caster_declarer_enum MoreSamples.Color initial = (Ret tt, st') /\
    registered st' (hash_code MoreSamples.Color) (hash_code (typeid float_t))
    = None /\
    registered st' (hash_code MoreSamples.Color) (hash_code (typeid double_t))
    = None.
Proof.
  destruct (enum_caster_declarer_skips_floats MoreSamples.Color initial
              numbered_injective registry_ok_initial)
    as (st' & Hrun & _ & _ & Hfloat & Hdouble & _).
  exists st'. split; [exact Hrun |]. split; [exact Hfloat | exact Hdouble].
Defined.

End CasterDeclarerFacts.

(** ** The class codec: composition *)
Module ClassCodecCompose.
Import ClassCodec ClassCodecFacts.

Section WithCodec.
Context `{C : PropertyCodec}.

Lemma write_in_declared_order_app (ps1 ps2 : list IProperty) : forall stream,
  write_in_declared_order (ps1 ++ ps2) stream
  = match write_in_declared_order ps1 stream with
    | (Ret _, stream1) => write_in_declared_order ps2 stream1
    | r => r
    end.
Proof.
  induction ps1 as [| prop ps1 IH]; intros stream; [done |].
  simpl. by destruct (write_value_to prop stream) as [[[] | e |] stream'].
Qed.

Lemma read_in_declared_order_app (ps1 ps2 : list IProperty) : forall stream,
  read_in_declared_order (ps1 ++ ps2) stream
  = match read_in_declared_order ps1 stream with
    | (Ret _, ps1', stream1) =>
        let '(o, ps2', stream2) := read_in_declared_order ps2 stream1 in
        (o, ps1' ++ ps2', stream2)
    | (o, ps1', stream1) => (o, ps1' ++ ps2, stream1)
    end.
Proof.
  induction ps1 as [| prop ps1 IH]; intros stream.
  - simpl. by destruct (read_in_declared_order ps2 stream) as [[o ps2'] s2].
  - simpl.
    destruct (read_value_from prop stream) as [[[[] | e |] prop'] stream'];
      [| done | done].
    rewrite IH.
    destruct (read_in_declared_order ps1 stream') as [[[[] | e |] ps1'] s1];
      [| done | done].
    by destruct (read_in_declared_order ps2 s1) as [[o ps2'] s2].
Qed.

Lemma read_in_declared_order_length (ps : list IProperty) : forall stream,
  length (read_in_declared_order ps stream).1.2 = length ps.
Proof.
  induction ps as [| prop ps IH]; intros stream; [done |]. simpl.
  destruct (read_value_from prop stream) as [[[[] | e |] prop'] stream'];
    [| done | done].
  specialize (IH stream').
  destruct (read_in_declared_order ps stream') as [[o ps'] s']. simpl in *.
  by rewrite IH.
Qed.

Lemma write_to_declared_order ps stream :
  write_to stream {| get_properties := ps |}
  = Some (write_in_declared_order ps stream).
Proof.
  unfold write_to. cbn [get_properties].
  rewrite write_loop_declared_order by lia. by rewrite drop_0.
Qed.

Lemma read_from_declared_order ps stream :
  read_from stream {| get_properties := ps |}
  = Some (let '(o, ps', stream') := read_in_declared_order ps stream in
          (o, {| get_properties := ps' |}, stream')).
Proof.
  unfold read_from. cbn [get_properties].
  rewrite read_loop_declared_order by lia. rewrite drop_0. cbn [take app].
  by destruct (read_in_declared_order ps stream) as [[o ps'] stream'].
Qed.

(** X13. Writing an object whose properties are [ps1] followed by [ps2]
    is writing [ps1] and then, where that returned, [ps2] to the stream it
    left; a failure among [ps1] is the failure of the whole and nothing of
    [ps2] is written. Reading composes the same way, leaves the properties
    after a failure as they were, and never changes how many properties
    the object has. An object without properties leaves the stream
    untouched. *)
Theorem class_codec_composes (ps1 ps2 : list IProperty) (stream : BitStream) :
  write_to stream {| get_properties := ps1 ++ ps2 |}
  = match write_to stream {| get_properties := ps1 |} with
    | Some (Ret _, stream1) => write_to stream1 {| get_properties := ps2 |}
    | r => r
    end /\
  read_from stream {| get_properties := ps1 ++ ps2 |}
  = match read_from stream {| get_properties := ps1 |} with
    | Some (Ret _, object1, stream1) =>
        match read_from stream1 {| get_properties := ps2 |} with
        | Some (o, object2, stream2) =>
            Some (o,
                  {| get_properties :=
                       get_properties object1 ++ get_properties object2 |},
                  stream2)
        | None => None
        end
    | Some (o, object1, stream1) =>
        Some (o, {| get_properties := get_properties object1 ++ ps2 |}, stream1)
    | None => None
    end /\
  (exists o object' stream',
     read_from stream {| get_properties := ps1 |} = Some (o, object', stream') /\
     length (get_properties object') = length ps1) /\
  write_to stream {| get_properties := [] |} = Some (Ret tt, stream) /\
  read_from stream {| get_properties := [] |}
  = Some (Ret tt, {| get_properties := [] |}, stream).
Proof.
  rewrite !write_to_declared_order, !read_from_declared_order.
  rewrite write_in_declared_order_app, read_in_declared_order_app.
  split; [| split; [| split; [| done]]].
  - destruct (write_in_declared_order ps1 stream) as [[[] | e |] stream1];
      [| done | done].
    by rewrite write_to_declared_order.
  - destruct (read_in_declared_order ps1 stream) as [[[[] | e |] ps1'] stream1];
      [| done | done].
    rewrite read_from_declared_order.
    by destruct (read_in_declared_order ps2 stream1) as [[o ps2'] stream2].
  - pose proof (read_in_declared_order_length ps1 stream) as Hlen.
    destruct (read_in_declared_order ps1 stream) as [[o ps1'] stream1].
    by eexists _, _, _.
Qed.

End WithCodec.

End ClassCodecCompose.

(** ** The wide string field of DML *)
Module DmlFacts.
Import Dml.

Open Scope Z_scope.

Lemma length_c_str_bytes m (value : list Z) :
  length (c_str_bytes m value) = (2 * length value)%nat.
Proof.
  unfold c_str_bytes. induction value as [| u value IH]; [done |].
  simpl. rewrite IH. lia.
Qed.

(** X14. [write_to] puts on the stream exactly [get_size()] bytes, on any
    machine and for a string of any length. *)
Theorem WStrField_write_to_size (m : Machine) (m_value : list Z)
    (ostream : list Z) :
  length (write_to m m_value ostream)
  = (length ostream + get_size m_value)%nat.
Proof.
  unfold write_to, get_size. rewrite !length_app, length_c_str_bytes.
  simpl. lia.
Qed.

Lemma high_byte_of_length n :
  0 <= n -> Z.shiftr (Z.land n 0xFF00) 8 = (n / 256) mod 256.
Proof.
  intros Hn. rewrite Z.shiftr_land.
  change (Z.shiftr 0xFF00 8) with (Z.ones 8).
  rewrite Z.land_ones by lia. by rewrite Z.shiftr_div_pow2 by lia.
Qed.

Lemma bytes_of_USHRT n :
  (n mod 65536) mod 256 = n mod 256 /\
  ((n mod 65536) / 256) mod 256 = (n / 256) mod 256.
Proof.
  change 65536 with (256 * 256). rewrite Z.rem_mul_r by lia.
  rewrite (Z.mul_comm 256). split.
  - rewrite Z.mod_add by lia. apply Z.mod_mod. lia.
  - rewrite Z.div_add by lia.
    rewrite (Z.div_small (n mod 256)) by (apply Z.mod_pos_bound; lia).
    simpl. apply Z.mod_mod. lia.
Qed.

(** X15. The length that [write_to] puts before the code units is the
    low byte then the high byte of the length modulo 65536 -- on every
    machine but one: big-endian with a signed [char], when the high byte is
    128 or more, where the comparison that detects the byte order fails and
    the bytes go out high byte first. *)
Theorem WStrField_length_prefix (m : Machine) (m_value : list Z) :
  let n := Z.of_nat (length m_value) in
  let lo := n mod 256 in
  let hi := (n / 256) mod 256 in
  write_to m m_value []
  = (if big_endian m && char_is_signed m && (128 <=? hi) then [hi; lo]
     else [lo; hi]) ++ c_str_bytes m m_value.
Proof.
  intros n lo hi. unfold write_to. fold n. simpl. f_equal.
  rewrite high_byte_of_length by lia. fold hi.
  unfold ValueBytes_buff. destruct (bytes_of_USHRT n) as [-> ->].
  fold lo hi.
  assert (0 <= lo < 256) by (apply Z.mod_pos_bound; lia).
  assert (0 <= hi < 256) by (apply Z.mod_pos_bound; lia).
  unfold char_as_size_t.
  destruct (big_endian m), (char_is_signed m); simpl.
  - destruct (Z.leb_spec 128 hi); simpl.
    + by destruct (Z.eqb_spec (2 ^ 64 + (hi - 256)) hi); [lia |].
    + by rewrite Z.eqb_refl.
  - by rewrite Z.eqb_refl.
  - destruct (Z.leb_spec 128 lo); simpl.
    + by destruct (Z.eqb_spec (2 ^ 64 + (lo - 256)) hi); [lia |].
    + by destruct (Z.eqb_spec lo hi) as [-> |].
  - by destruct (Z.eqb_spec lo hi) as [-> |].
Qed.


Lemma ValueBytes_round_trip m u :
  0 <= u < 65536 -> ValueBytes_value m (ValueBytes_buff m u) = u.
Proof.
  intros Hu. unfold ValueBytes_value, ValueBytes_buff.
  rewrite (Z.mod_small (u / 256)) by (split; [apply Z.div_pos | apply Z.div_lt_upper_bound]; lia).
  pose proof (Z.div_mod u 256 ltac:(lia)).
  destruct (big_endian m); simpl; lia.
Qed.

Lemma units_c_str_bytes m (value more : list Z) :
  is_WSTR value ->
  units m (c_str_bytes m value ++ more) = value ++ units m more.
Proof.
  induction 1 as [| u value Hu _ IH]; [done |].
  cbn [c_str_bytes flat_map app units]. fold (c_str_bytes m value).
  rewrite IH. f_equal.
  rewrite <- (ValueBytes_round_trip m u Hu) at 3. by destruct (ValueBytes_buff m u).
Qed.

Lemma take_drop_c_str_bytes m (n : nat) : forall (value rest : list Z),
  (n <= length value)%nat ->
  take (2 * n) (c_str_bytes m value ++ rest) = c_str_bytes m (take n value) /\
  drop (2 * n) (c_str_bytes m value ++ rest) = c_str_bytes m (drop n value) ++ rest.
Proof.
  induction n as [| n IH]; intros value rest Hn; [done |].
  destruct value as [| u value]; [simpl in Hn; lia |].
  replace (2 * S n)%nat with (S (S (2 * n))) by lia.
  destruct (IH value rest ltac:(simpl in Hn; lia)) as [Htake Hdrop].
  cbn [c_str_bytes flat_map app take drop]. fold (c_str_bytes m value).
  fold (c_str_bytes m (take n value)). by rewrite Htake, Hdrop.
Qed.

Lemma reverse_units_without_swap count : forall i data,
  reverse_units count false i data = data.
Proof. induction count as [| count IH]; intros i data; [done | apply IH]. Qed.

Lemma until_null_at_null (value more : list Z) :
  until_null (value ++ 0 :: more) = until_null value.
Proof.
  induction value as [| u value IH]; [done |]. simpl.
  destruct (u =? 0); [done | by rewrite IH].
Qed.

Lemma until_null_without_null (value : list Z) :
  0 ∉ value -> until_null value = value.
Proof.
  induction value as [| u value IH]; [done |].
  intros [Hu Hrest]%not_elem_of_cons. simpl.
  destruct (Z.eqb_spec u 0); [congruence | by rewrite IH].
Qed.

Lemma istream_read_enough (n : nat) (bytes : list Z) :
  (n <= length bytes)%nat ->
  istream_read n {| unread := bytes; failbit := false |}
  = (take n bytes, {| unread := drop n bytes; failbit := false |}).
Proof.
  intros Hn%Nat.leb_le. unfold istream_read. simpl. by rewrite Hn.
Qed.

(** What a little-endian machine reads back from what it wrote. *)
Lemma read_back m (value rest : list Z) :
  big_endian m = false -> is_WSTR value ->
  let n := Z.to_nat (Z.of_nat (length value) mod 65536) in
  read_from m {| unread := write_to m value [] ++ rest; failbit := false |}
  = (Ret (until_null (take n value)),
     {| unread := c_str_bytes m (drop n value) ++ rest; failbit := false |}).
Proof.
  intros Hle Hvalue n.
  pose proof (WStrField_length_prefix m value) as Hwrite.
  cbv zeta in Hwrite. rewrite Hle in Hwrite. cbn [andb] in Hwrite.
  rewrite Hwrite. clear Hwrite.
  set (len := Z.of_nat (length value)).
  assert (Hn : Z.of_nat n = len mod 65536)
    by (subst n; fold len; pose proof (Z.mod_pos_bound len 65536); lia).
  assert (Hnle : (n <= length value)%nat).
  { pose proof (Z.mod_le len 65536 ltac:(lia) ltac:(lia)). lia. }
  assert (Hcheck : ((ValueBytes_buff m 0x0102).1 =? 0x01) = false)
    by (unfold ValueBytes_buff; by rewrite Hle).
  assert (Hlen : ValueBytes_value m (len mod 256, (len / 256) mod 256)
                 = Z.of_nat n).
  { unfold ValueBytes_value. rewrite Hle, Hn. cbn [fst snd].
    change 65536 with (256 * 256). rewrite Z.rem_mul_r by lia. lia. }
  unfold read_from. rewrite Hcheck.
  rewrite <- app_assoc. cbn [app].
  rewrite istream_read_enough by (cbn [length]; lia).
  cbn [take drop]. rewrite take_0, !drop_0. cbv beta iota zeta. rewrite Hlen.
  replace (Z.to_nat (Z.of_nat n * 2)) with (2 * n)%nat by lia.
  rewrite istream_read_enough
    by (rewrite length_app, length_c_str_bytes; lia).
  destruct (take_drop_c_str_bytes m n value rest Hnle) as [-> ->].
  rewrite reverse_units_without_swap, length_c_str_bytes, length_take.
  replace (2 * n + 2 - 2 * (n `min` length value))%nat with 2%nat by lia.
  rewrite units_c_str_bytes by by apply Forall_take.
  cbn [replicate units]. unfold ValueBytes_value. rewrite Hle. cbn [fst snd].
  change (0 + 0 * 256) with 0. by rewrite until_null_at_null.
Qed.


Lemma length_until_null (value : list Z) :
  (length (until_null value) <= length value)%nat.
Proof.
  induction value as [| u value IH]; [done |]. simpl.
  destruct (u =? 0); simpl; lia.
Qed.

(** X16. On a little-endian machine, a string of fewer than 65536 code
    units, none of them null, is read back as it was written, and the
    stream is left at the byte after it. *)
Theorem WStrField_round_trip (m : Machine) (value rest : list Z) :
  big_endian m = false -> is_WSTR value ->
  Z.of_nat (length value) < 65536 -> 0 ∉ value ->
  read_from m {| unread := write_to m value [] ++ rest; failbit := false |}
  = (Ret value, {| unread := rest; failbit := false |}).
Proof.
  intros Hle Hvalue Hlen Hnull.
  pose proof (read_back m value rest Hle Hvalue) as Hback. cbv zeta in Hback.
  rewrite Z.mod_small, Nat2Z.id in Hback by lia.
  rewrite take_ge, drop_ge in Hback by lia.
  by rewrite until_null_without_null in Hback.
Qed.

(** X17. A null code unit inside the string cuts it short: on a
    little-endian machine, what is read back from a string of fewer than
    65536 code units is its part before the first null, although the whole
    string was written and is taken off the stream. *)
Theorem WStrField_stops_at_null (m : Machine) (before after rest : list Z) :
  big_endian m = false -> is_WSTR (before ++ 0 :: after) ->
  Z.of_nat (length (before ++ 0 :: after)) < 65536 -> 0 ∉ before ->
  read_from m
    {| unread := write_to m (before ++ 0 :: after) [] ++ rest; failbit := false |}
  = (Ret before, {| unread := rest; failbit := false |}).
Proof.
  intros Hle Hvalue Hlen Hnull.
  pose proof (read_back m _ rest Hle Hvalue) as Hback. cbv zeta in Hback.
  rewrite Z.mod_small, Nat2Z.id in Hback by lia.
  rewrite take_ge, drop_ge, until_null_at_null in Hback by lia.
  by rewrite until_null_without_null in Hback.
Qed.

(** X18. The length goes out in 16 bits while all code units are written:
    on a little-endian machine, a string of 65536 code units or more is
    read back as at most its first (length mod 65536) code units, never as
    itself, and the code units past those stay on the stream. *)
Theorem WStrField_length_wraps (m : Machine) (value rest : list Z) :
  big_endian m = false -> is_WSTR value ->
  65536 <= Z.of_nat (length value) ->
  let n := Z.to_nat (Z.of_nat (length value) mod 65536) in
  read_from m {| unread := write_to m value [] ++ rest; failbit := false |}
  = (Ret (until_null (take n value)),
     {| unread := c_str_bytes m (drop n value) ++ rest; failbit := false |}) /\
  (n < length value)%nat /\
  until_null (take n value) <> value.
Proof.
  intros Hle Hvalue Hlong n.
  split; [by apply read_back |].
  assert (Hn : (n < length value)%nat).
  { pose proof (Z.mod_pos_bound (Z.of_nat (length value)) 65536). lia. }
  split; [done |]. intros Heq.
  pose proof (length_until_null (take n value)) as Hshort.
  rewrite Heq, length_take in Hshort. lia.
Qed.


Lemma reverse_units_swaps (pairs : list (Z * Z)) : forall (swapped tail : list Z),
  reverse_units (length pairs) true (length swapped) (swapped ++ flat pairs ++ tail)
  = swapped ++ flat (map reverse pairs) ++ tail.
Proof.
  induction pairs as [| [a b] pairs IH]; intros swapped tail; [done |].
  cbn [length reverse_units flat flat_map map app reverse fst snd].
  fold (flat pairs). fold (flat (map reverse pairs)).
  rewrite (lookup_app_r swapped) by lia. rewrite Nat.sub_diag. cbn [lookup list_lookup].
  rewrite (lookup_app_r swapped) by lia.
  replace (S (length swapped) - length swapped)%nat with 1%nat by lia.
  cbn [lookup list_lookup].
  rewrite (insert_app_r_alt swapped) by lia.
  replace (S (length swapped) - length swapped)%nat with 1%nat by lia.
  rewrite (insert_app_r_alt swapped) by lia. rewrite Nat.sub_diag.
  cbn [insert list_insert].
  specialize (IH (swapped ++ [b; a]) tail).
  rewrite length_app in IH. cbn [length] in IH.
  rewrite <- !app_assoc in IH. cbn [app] in IH. exact IH.
Qed.

Lemma c_str_bytes_flat m (value : list Z) :
  c_str_bytes m value = flat (map (ValueBytes_buff m) value).
Proof.
  unfold c_str_bytes, flat. induction value as [| u value IH]; [done |].
  simpl. by rewrite IH.
Qed.

Lemma units_flat_swapped m (value more : list Z) :
  big_endian m = true -> is_WSTR value ->
  units m (flat (map reverse (map (ValueBytes_buff m) value)) ++ more)
  = map byte_swapped value ++ units m more.
Proof.
  intros Hbe. induction 1 as [| u value Hu _ IH]; [done |].
  cbn [map flat flat_map app units]. fold (flat (map reverse (map (ValueBytes_buff m) value))).
  rewrite IH. f_equal.
  unfold ValueBytes_value, ValueBytes_buff, reverse, byte_swapped.
  rewrite Hbe. cbn [fst snd]. done.
Qed.

(** X19. On a big-endian machine the field does not read back what it
    wrote: the code units are written in the machine's byte order, high
    byte first, and read as if low byte first, so each comes back with its
    two bytes exchanged (and the string is cut at the first unit that is
    null). This is so wherever the length itself goes out right: [char]
    unsigned, or fewer than 32768 code units. *)
Theorem WStrField_big_endian_swaps (m : Machine) (value rest : list Z) :
  big_endian m = true -> is_WSTR value ->
  Z.of_nat (length value) < (if char_is_signed m then 32768 else 65536) ->
  read_from m {| unread := write_to m value [] ++ rest; failbit := false |}
  = (Ret (until_null (map byte_swapped value)),
     {| unread := rest; failbit := false |}).
Proof.
  intros Hbe Hvalue Hlen.
  set (len := Z.of_nat (length value)).
  assert (Hlen' : 0 <= len < 65536) by (destruct (char_is_signed m); lia).
  pose proof (WStrField_length_prefix m value) as Hwrite.
  cbv zeta in Hwrite. fold len in Hwrite. rewrite Hbe in Hwrite.
  assert (Hhi : (char_is_signed m && (128 <=? (len / 256) mod 256)) = false).
  { destruct (char_is_signed m); [| done]. simpl.
    apply Z.leb_gt. rewrite Z.mod_small.
    - apply Z.div_lt_upper_bound; lia.
    - split; [apply Z.div_pos | apply Z.div_lt_upper_bound]; lia. }
  cbn [andb] in Hwrite. rewrite Hhi in Hwrite. rewrite Hwrite. clear Hwrite.
  assert (Hcheck : ((ValueBytes_buff m 0x0102).1 =? 0x01) = true)
    by (unfold ValueBytes_buff; by rewrite Hbe).
  assert (Hvalue_len :
            ValueBytes_value m (reverse (len mod 256, (len / 256) mod 256)) = len).
  { unfold ValueBytes_value, reverse. rewrite Hbe. cbn [fst snd].
    rewrite (Z.mod_small (len / 256))
      by (split; [apply Z.div_pos | apply Z.div_lt_upper_bound]; lia).
    pose proof (Z.div_mod len 256 ltac:(lia)). lia. }
  unfold read_from. rewrite Hcheck.
  rewrite <- app_assoc. cbn [app].
  rewrite istream_read_enough by (cbn [length]; lia).
  cbn [take drop]. rewrite take_0, !drop_0. cbv beta iota zeta.
  rewrite Hvalue_len.
  replace (Z.to_nat (len * 2)) with (2 * length value)%nat by lia.
  rewrite istream_read_enough
    by (rewrite length_app, length_c_str_bytes; lia).
  destruct (take_drop_c_str_bytes m (length value) value rest ltac:(lia))
    as [-> ->].
  rewrite take_ge, drop_ge by lia. cbn [c_str_bytes flat_map app].
  rewrite length_c_str_bytes.
  replace (2 * length value + 2 - 2 * length value)%nat with 2%nat by lia.
  replace ((2 * length value + 1) / 2)%nat with (length (map (ValueBytes_buff m) value)).
  2:{ rewrite length_map. apply Nat.div_unique with 1%nat; lia. }
  rewrite c_str_bytes_flat.
  pose proof (reverse_units_swaps (map (ValueBytes_buff m) value) []
                (replicate 2 0)) as Hswap.
  cbn [length app] in Hswap. rewrite Hswap.
  rewrite units_flat_swapped by done. cbn [replicate units].
  unfold ValueBytes_value. rewrite Hbe. cbn [fst snd].
  change (0 * 256 + 0) with 0.
  by rewrite until_null_at_null.
Qed.

Lemma WStrField_round_trip_witness :
  read_from MoreSamples.x86
    {| unread := write_to MoreSamples.x86 [72; 105] [] ++ [9]; failbit := false |}
  = (Ret [72; 105], {| unread := [9]; failbit := false |}).
Proof.
  apply (WStrField_round_trip MoreSamples.x86 [72; 105] [9]).
  - reflexivity.
  - repeat constructor; lia.
  - simpl. lia.
  - intros Hin. repeat (apply elem_of_cons in Hin as [? | Hin]; [lia |]).
    by apply elem_of_nil in Hin.
Defined.

Lemma WStrField_stops_at_null_witness :
  read_from MoreSamples.x86
    {| unread := write_to MoreSamples.x86 ([72] ++ 0 :: [105]) [] ++ [9];
       failbit := false |}
  = (Ret [72], {| unread := [9]; failbit := false |}).
Proof.
  apply (WStrField_stops_at_null MoreSamples.x86 [72] [105] [9]).
  - reflexivity.
  - repeat constructor; lia.
  - simpl. lia.
  - intros Hin. repeat (apply elem_of_cons in Hin as [? | Hin]; [lia |]).
    by apply elem_of_nil in Hin.
Defined.

Lemma WStrField_length_wraps_witness :
  (Z.to_nat (Z.of_nat (length MoreSamples.long_value) mod 65536)
   < length MoreSamples.long_value)%nat /\
  until_null
    (take (Z.to_nat (Z.of_nat (length MoreSamples.long_value) mod 65536))
       MoreSamples.long_value)
  <> MoreSamples.long_value.
Proof.
  refine (proj2 (WStrField_length_wraps MoreSamples.x86 MoreSamples.long_value
                   [] eq_refl _ _)).
  - apply Forall_replicate. lia.
  - unfold MoreSamples.long_value. rewrite length_replicate. lia.
Defined.

Lemma WStrField_big_endian_swaps_witness :
  read_from MoreSamples.big
    {| unread := write_to MoreSamples.big [0x41] [] ++ [9]; failbit := false |}
  = (Ret [0x4100], {| unread := [9]; failbit := false |}).
Proof.
  apply (WStrField_big_endian_swaps MoreSamples.big [0x41] [9]).
  - reflexivity.
  - repeat constructor; lia.
  - simpl. lia.
Defined.


End DmlFacts.

